(** * A shallow embedding of the rcsh grammar (src/src/lib.rs, [peg::parser!])

    The grammar is a rust-peg PEG grammar over [str].  A rule is modelled as a
    function from the remaining input to [None] (no match) or [Some (v, rest)]
    (match with value [v], [rest] still unconsumed).  Ordered choice [/] is
    [alt], sequencing is [bind], [e*], [e+], [e ** sep], [!e] and [$(e)] are
    [star], [plus], [sep_by], [not_followed] and [slice].  A public rule
    [parser::r(input)] succeeds only when the rule matched the whole input
    ([run]); the [ParseError] payload (position, expected set) is not
    modelled, an error is [None].  Characters are ASCII. *)

From Stdlib Require Import List Bool Arith Lia.
From Stdlib Require Import Ascii String.
Import ListNotations.
Open Scope string_scope.
Open Scope char_scope.

(** ** The AST ([mod ast]) *)

Module ast.

Inductive Arg : Type :=
| Var (v : string)
| Word (w : string).

Definition List := list Arg.

Inductive Stmt : Type :=
| Assignment (target : Arg) (value : List)
| Command (name : Arg) (args : List).

End ast.

Import ast.

(** ** String helpers *)

Definition tab : ascii := "009".
Definition newline : ascii := "010".
Definition quote : ascii := "'".

(** Longest prefix whose characters satisfy [f], and the remainder. *)
Fixpoint span (f : ascii -> bool) (s : string) : string * string :=
  match s with
  | EmptyString => (EmptyString, EmptyString)
  | String c r =>
      if f c then let (u, v) := span f r in (String c u, v)
      else (EmptyString, s)
  end.

(** [stops f r]: [r] is empty or its first character fails [f]. *)
Definition stops (f : ascii -> bool) (r : string) : bool :=
  match r with
  | EmptyString => true
  | String c _ => negb (f c)
  end.

Fixpoint all_chars (f : ascii -> bool) (s : string) : bool :=
  match s with
  | EmptyString => true
  | String c r => f c && all_chars f r
  end.

Definition head_is (c : ascii) (s : string) : bool :=
  match s with
  | EmptyString => false
  | String d _ => Ascii.eqb c d
  end.

(** ** A small PEG combinator library (the rust-peg operators used) *)

Definition rule (A : Type) := string -> option (A * string).

Definition ret {A} (a : A) : rule A := fun s => Some (a, s).

Definition bind {A B} (p : rule A) (k : A -> rule B) : rule B :=
  fun s => match p s with
           | Some (a, r) => k a r
           | None => None
           end.

Notation "x <- p ;; k" := (bind p (fun x => k))
  (at level 61, p at next level, right associativity).

(** [e1 / e2] *)
Definition alt {A} (p q : rule A) : rule A :=
  fun s => match p s with
           | Some res => Some res
           | None => q s
           end.

(** [[_]] *)
Definition any_char : rule ascii :=
  fun s => match s with
           | EmptyString => None
           | String c r => Some (c, r)
           end.

(** [[pattern]] *)
Definition char_if (f : ascii -> bool) : rule ascii :=
  fun s => match s with
           | String c r => if f c then Some (c, r) else None
           | EmptyString => None
           end.

(** ["literal"] *)
Fixpoint lit (l : string) : rule unit :=
  fun s => match l with
           | EmptyString => Some (tt, s)
           | String c l' =>
               match s with
               | String d s' => if Ascii.eqb c d then lit l' s' else None
               | EmptyString => None
               end
           end.

(** [!e]: negative lookahead, never consumes. *)
Definition not_followed {A} (p : rule A) : rule unit :=
  fun s => match p s with
           | Some _ => None
           | None => Some (tt, s)
           end.

(** [$(e)]: the slice of the input matched by [e]. *)
Definition slice {A} (p : rule A) : rule string :=
  fun s => match p s with
           | Some (_, r) => Some (substring 0 (length s - length r) s, r)
           | None => None
           end.

(** [quiet!{e}] only affects error reporting. *)
Definition quiet {A} (p : rule A) : rule A := p.

(** [e*]: greedy repetition.  Every repeated rule of the grammar consumes at
    least one character per iteration, so [length s + 1] iterations are
    enough; the fuel never runs out before [e] fails. *)
Fixpoint star_fuel {A} (fuel : nat) (p : rule A) : rule (list A) :=
  fun s => match fuel with
           | O => Some ([], s)
           | S f =>
               match p s with
               | Some (a, r) =>
                   match star_fuel f p r with
                   | Some (l, r') => Some (a :: l, r')
                   | None => None
                   end
               | None => Some ([], s)
               end
           end.

Definition star {A} (p : rule A) : rule (list A) :=
  fun s => star_fuel (S (length s)) p s.

(** [e+] *)
Definition plus {A} (p : rule A) : rule (list A) :=
  x <- p ;; xs <- star p ;; ret (x :: xs).

(** [e ** sep]: zero or more [e] separated by [sep]; a separator not
    followed by an [e] is not consumed. *)
Definition sep_by {A B} (p : rule A) (sep : rule B) : rule (list A) :=
  alt (x <- p ;; xs <- star (_ <- sep ;; p) ;; ret (x :: xs)) (ret []).

(** [parser::r(input)]: the rule must consume the entire input. *)
Definition run {A} (p : rule A) (input : string) : option A :=
  match p input with
  | Some (v, EmptyString) => Some v
  | _ => None
  end.

(** ** Character classes *)

(** [' ' | '\t'] *)
Definition is_hspace (c : ascii) : bool :=
  Ascii.eqb c " " || Ascii.eqb c tab.

(** ['#' | '$' | '|' | '&' | ';' | '(' | ')' | '<' | '>' | ' ' | '\t' | '\n'] *)
Definition specials : list ascii :=
  ["#"; "$"; "|"; "&"; ";"; "("; ")"; "<"; ">"; " "; tab; newline].

Definition is_special (c : ascii) : bool := existsb (Ascii.eqb c) specials.

Definition is_ordinary (c : ascii) : bool := negb (is_special c).

Definition in_range (lo hi c : ascii) : bool :=
  Nat.leb (nat_of_ascii lo) (nat_of_ascii c) && Nat.leb (nat_of_ascii c) (nat_of_ascii hi).

(** ['a'..='z' | 'A'..='Z' | '0'..='9' | '%' | '*' | '_' | '-'] *)
Definition is_name_char (c : ascii) : bool :=
  in_range "a" "z" c || in_range "A" "Z" c || in_range "0" "9" c
  || Ascii.eqb c "%" || Ascii.eqb c "*" || Ascii.eqb c "_" || Ascii.eqb c "-".

Definition not_quote (c : ascii) : bool := negb (Ascii.eqb c quote).

(** ** The grammar ([grammar parser() for str]) *)

Module grammar.

(** [rule _() = quiet!{ [' ' | '\t'] }] *)
Definition ws : rule unit := quiet (_ <- char_if is_hspace ;; ret tt).

(** [rule chr() = ![specials] [_]] *)
Definition chr : rule unit :=
  _ <- not_followed (char_if is_special) ;; _ <- any_char ;; ret tt.

(** [word_unquoted() = w:$(chr()+) { Word(w) }] *)
Definition word_unquoted : rule Arg :=
  w <- slice (plus chr) ;; ret (Word w).

(** [word_quoted() = "'" s:$((!"'" [_])* ) "'" { Word(s) }] *)
Definition word_quoted : rule Arg :=
  _ <- lit "'" ;;
  s <- slice (star (_ <- not_followed (lit "'") ;; any_char)) ;;
  _ <- lit "'" ;;
  ret (Word s).

(** [word() = word_quoted() / word_unquoted()] *)
Definition word : rule Arg := alt word_quoted word_unquoted.

(** [name() = n:$([name chars]+) { n }] *)
Definition name : rule string := slice (plus (char_if is_name_char)).

(** [reference() = "$" v:name() { Var(v) }] *)
Definition reference : rule Arg :=
  _ <- lit "$" ;; v <- name ;; ret (Var v).

(** [arg() = reference() / word()] *)
Definition arg : rule Arg := alt reference word.

(** [list() = "(" x:(arg() ** _) ")" { x } / x:(arg() ** _) { x }] *)
Definition list : rule ast.List :=
  alt (_ <- lit "(" ;; x <- sep_by arg ws ;; _ <- lit ")" ;; ret x)
      (sep_by arg ws).

(** [assignment() = n:arg() _ "=" _ x:list() { Assignment(n, x) }] *)
Definition assignment : rule Stmt :=
  n <- arg ;; _ <- ws ;; _ <- lit "=" ;; _ <- ws ;; x <- list ;;
  ret (Assignment n x).

(** [command() = n:arg() _ x:list() { Command(n, x) }] *)
Definition command : rule Stmt :=
  n <- arg ;; _ <- ws ;; x <- list ;; ret (Command n x).

End grammar.

(** ** The public entry points ([parser::word(input)], ...) *)

Module parser.

Definition word_unquoted (input : string) : option Arg := run grammar.word_unquoted input.
Definition word_quoted (input : string) : option Arg := run grammar.word_quoted input.
Definition word (input : string) : option Arg := run grammar.word input.
Definition name (input : string) : option string := run grammar.name input.
Definition reference (input : string) : option Arg := run grammar.reference input.
Definition arg (input : string) : option Arg := run grammar.arg input.
Definition list (input : string) : option ast.List := run grammar.list input.
Definition assignment (input : string) : option Stmt := run grammar.assignment input.
Definition command (input : string) : option Stmt := run grammar.command input.

End parser.

(** ** The earlier grammar of src/src/parser.rs ([grammar rcsh_parser()])

    Its rules [_] to [list] (lines 22-60) are the same text as those of
    src/src/lib.rs, so they are the rules of [grammar] above.  It differs in
    the statements: their target is a [name()], an assignment holds the name
    as a [String], and [command] returns a pair. *)

Module rcsh_ast.

Inductive Stmt : Type :=
| Assignment (target : string) (value : ast.List).

End rcsh_ast.

Module rcsh_grammar.

(** [assignment() = n:name() _ "=" _ x:list() { Assignment(n, x) }] *)
Definition assignment : rule rcsh_ast.Stmt :=
  n <- grammar.name ;; _ <- grammar.ws ;; _ <- lit "=" ;; _ <- grammar.ws ;;
  x <- grammar.list ;; ret (rcsh_ast.Assignment n x).

(** [command() -> (String, List) = n:name() _ x:list() { (n, x) }] *)
Definition command : rule (string * ast.List) :=
  n <- grammar.name ;; _ <- grammar.ws ;; x <- grammar.list ;; ret (n, x).

End rcsh_grammar.

Module rcsh_parser.

Definition assignment (input : string) : option rcsh_ast.Stmt := run rcsh_grammar.assignment input.
Definition command (input : string) : option (string * ast.List) := run rcsh_grammar.command input.

End rcsh_parser.

(** ** Lemmas about strings and [span] *)

Lemma append_nil_r (s : string) : s ++ EmptyString = s.
Proof. induction s as [|c s IH]; simpl; [reflexivity | now rewrite IH]. Qed.

Lemma append_assoc_s (a b c : string) : (a ++ b) ++ c = a ++ (b ++ c).
Proof. induction a as [|x a IH]; simpl; [reflexivity | now rewrite IH]. Qed.

Lemma length_append_s (a b : string) : length (a ++ b) = length a + length b.
Proof. induction a as [|x a IH]; simpl; [reflexivity | now rewrite IH]. Qed.

Lemma substring_prefix (u r : string) : substring 0 (length u) (u ++ r) = u.
Proof. induction u as [|c u IH]; simpl; [now destruct r | now rewrite IH]. Qed.

Lemma span_spec (f : ascii -> bool) (s : string) :
  let (u, r) := span f s in s = u ++ r /\ all_chars f u = true /\ stops f r = true.
Proof.
  induction s as [|c s IH]; simpl; [auto|].
  destruct (f c) eqn:Hf.
  - destruct (span f s) as [u r]. destruct IH as (-> & Hu & Hr).
    simpl. rewrite Hf. auto.
  - simpl. rewrite Hf. auto.
Qed.

Lemma span_app_stop (f : ascii -> bool) (u r : string) :
  all_chars f u = true -> stops f r = true -> span f (u ++ r) = (u, r).
Proof.
  intros Hu Hr. induction u as [|c u IH]; simpl.
  - destruct r as [|d r]; simpl in *; [reflexivity|].
    destruct (f d); [discriminate | reflexivity].
  - simpl in Hu. apply andb_prop in Hu as [Hc Hu].
    rewrite Hc, (IH Hu). reflexivity.
Qed.

Lemma span_all (f : ascii -> bool) (s : string) :
  all_chars f s = true -> span f s = (s, EmptyString).
Proof.
  intros H. rewrite <- (append_nil_r s) at 1. rewrite span_app_stop; auto.
Qed.

(** ** Lemmas about the combinators *)

(** A rule makes progress when every match consumes at least one character. *)
Definition progress {A} (p : rule A) : Prop :=
  forall s a r, p s = Some (a, r) -> length r < length s.

Section Star.
Context {A : Type} (p : rule A).
Hypothesis Hp : progress p.

Lemma star_fuel_enough (f g : nat) (s : string) :
  length s < f -> length s < g -> star_fuel f p s = star_fuel g p s.
Proof.
  revert g s. induction f as [|f IH]; intros g s Hf Hg; [lia|].
  destruct g as [|g]; [lia|]. simpl.
  destruct (p s) as [[a r]|] eqn:E; [|reflexivity].
  apply Hp in E. rewrite (IH g r) by lia. reflexivity.
Qed.

Lemma star_unfold (s : string) :
  star p s =
  match p s with
  | Some (a, r) =>
      match star p r with
      | Some (l, r') => Some (a :: l, r')
      | None => None
      end
  | None => Some ([], s)
  end.
Proof.
  unfold star at 1. simpl.
  destruct (p s) as [[a r]|] eqn:E; [|reflexivity].
  apply Hp in E. unfold star. rewrite (star_fuel_enough (length s) (S (length r))) by lia.
  reflexivity.
Qed.

End Star.

Lemma star_fuel_total {A} (p : rule A) (f : nat) (s : string) : star_fuel f p s <> None.
Proof.
  revert s. induction f as [|f IH]; intros s; simpl; [discriminate|].
  destruct (p s) as [[a r]|]; [|discriminate].
  specialize (IH r). destruct (star_fuel f p r) as [[l r']|]; [discriminate|congruence].
Qed.

Lemma star_total {A} (p : rule A) (s : string) : star p s <> None.
Proof. apply star_fuel_total. Qed.

Lemma slice_app {A} (p : rule A) (u r : string) (x : A) :
  p (u ++ r) = Some (x, r) -> slice p (u ++ r) = Some (u, r).
Proof.
  intros E. unfold slice. rewrite E, length_append_s.
  replace (length u + length r - length r) with (length u) by lia.
  now rewrite substring_prefix.
Qed.

(** [p] matches exactly one character, one satisfying [f]. *)
Definition class_rule {A} (f : ascii -> bool) (p : rule A) : Prop :=
  p EmptyString = None /\
  forall c r, (f c = true -> exists a, p (String c r) = Some (a, r)) /\
              (f c = false -> p (String c r) = None).

Lemma class_progress {A} f (p : rule A) : class_rule f p -> progress p.
Proof.
  intros [H0 H] s a r E. destruct s as [|c s]; [congruence|].
  destruct (H c s) as [Ht Hf]. destruct (f c) eqn:Fc.
  - destruct (Ht eq_refl) as [a' E']. rewrite E' in E. inversion E; subst. simpl. lia.
  - rewrite (Hf eq_refl) in E. discriminate.
Qed.

Lemma star_class {A} f (p : rule A) (s : string) :
  class_rule f p -> exists l, star p s = Some (l, snd (span f s)).
Proof.
  intros Hc. pose proof (class_progress f p Hc) as Hp.
  destruct Hc as [H0 H].
  induction s as [|c s IH].
  - exists []. rewrite (star_unfold p Hp). now rewrite H0.
  - rewrite (star_unfold p Hp). destruct (H c s) as [Ht Hf]. simpl.
    destruct (f c) eqn:Fc.
    + destruct (Ht eq_refl) as [a E]. rewrite E. destruct IH as [l ->].
      destruct (span f s). exists (a :: l). reflexivity.
    + rewrite (Hf eq_refl). exists []. reflexivity.
Qed.

Lemma slice_star_class {A} f (p : rule A) (s : string) :
  class_rule f p -> slice (star p) s = Some (span f s).
Proof.
  intros Hc. destruct (star_class f p s Hc) as [l E].
  pose proof (span_spec f s) as Hs. destruct (span f s) as [u r] eqn:Es.
  destruct Hs as (-> & _ & _). simpl in E. now apply slice_app in E.
Qed.

Lemma slice_plus_class {A} f (p : rule A) (s : string) :
  class_rule f p ->
  slice (plus p) s =
  match span f s with
  | (EmptyString, _) => None
  | res => Some res
  end.
Proof.
  intros Hc. pose proof Hc as [H0 H].
  destruct s as [|c s].
  - unfold slice, plus, bind. now rewrite H0.
  - destruct (H c s) as [Ht Hf]. simpl. destruct (f c) eqn:Fc.
    + destruct (Ht eq_refl) as [a E].
      destruct (star_class f p s Hc) as [l E2].
      pose proof (span_spec f s) as Hs. destruct (span f s) as [u r] eqn:Es.
      destruct Hs as (-> & _ & _). simpl in E2.
      change (String c (u ++ r)) with ((String c u) ++ r).
      apply (slice_app (plus p) (String c u) r (a :: l)).
      unfold plus, bind, ret. simpl. rewrite E, E2. reflexivity.
    + unfold slice, plus, bind. now rewrite (Hf eq_refl).
Qed.

(** ** Character facts (checked over all 256 ASCII characters) *)

Ltac all_ascii c :=
  destruct c as [[] [] [] [] [] [] [] []]; vm_compute; intuition congruence.

Lemma hspace_facts (c : ascii) :
  is_hspace c = true ->
  is_special c = true /\ is_name_char c = false /\ not_quote c = true /\
  is_ordinary c = false.
Proof. all_ascii c. Qed.

Lemma name_char_facts (c : ascii) :
  is_name_char c = true ->
  is_special c = false /\ not_quote c = true /\ is_hspace c = false.
Proof. all_ascii c. Qed.

Lemma not_quote_false (c : ascii) : not_quote c = false -> c = quote.
Proof. all_ascii c. Qed.

Lemma eqb_quote (c : ascii) : Ascii.eqb "'" c = negb (not_quote c).
Proof. all_ascii c. Qed.

(** ** The lexical rules as functions of [span] *)

Lemma chr_class : class_rule is_ordinary grammar.chr.
Proof.
  split; [reflexivity|]. intros c r. unfold is_ordinary.
  unfold grammar.chr, bind, not_followed, char_if, any_char, ret.
  destruct (is_special c); simpl; split; intros H; try discriminate; eauto.
Qed.

Lemma char_if_class (f : ascii -> bool) : class_rule f (char_if f).
Proof.
  split; [reflexivity|]. intros c r. unfold char_if.
  destruct (f c); split; intros H; try discriminate; eauto.
Qed.

Lemma quoted_char_class :
  class_rule not_quote (_ <- not_followed (lit "'") ;; any_char).
Proof.
  split; [reflexivity|]. intros c r.
  unfold bind, not_followed, any_char. cbn -[Ascii.eqb]. rewrite eqb_quote.
  destruct (not_quote c); simpl; split; intros H; try discriminate; eauto.
Qed.

Lemma word_unquoted_spec (s : string) :
  grammar.word_unquoted s =
  match span is_ordinary s with
  | (EmptyString, _) => None
  | (u, r) => Some (Word u, r)
  end.
Proof.
  unfold grammar.word_unquoted, bind.
  rewrite (slice_plus_class is_ordinary grammar.chr s chr_class).
  destruct (span is_ordinary s) as [[|c u] r]; reflexivity.
Qed.

Lemma name_spec (s : string) :
  grammar.name s =
  match span is_name_char s with
  | (EmptyString, _) => None
  | res => Some res
  end.
Proof. apply (slice_plus_class is_name_char _ s (char_if_class is_name_char)). Qed.

Lemma bind_some {A B} (p : rule A) (k : A -> rule B) s a r :
  p s = Some (a, r) -> bind p k s = k a r.
Proof. unfold bind. now intros ->. Qed.

Lemma bind_none {A B} (p : rule A) (k : A -> rule B) s :
  p s = None -> bind p k s = None.
Proof. unfold bind. now intros ->. Qed.

Lemma lit_char (c d : ascii) (r : string) :
  lit (String c EmptyString) (String d r) = if Ascii.eqb c d then Some (tt, r) else None.
Proof. simpl. now destruct (Ascii.eqb c d). Qed.

Lemma word_quoted_spec (s : string) :
  grammar.word_quoted s =
  match s with
  | String c s' =>
      if Ascii.eqb quote c then
        let (u, r) := span not_quote s' in
        match r with
        | String _ r' => Some (Word u, r')
        | EmptyString => None
        end
      else None
  | EmptyString => None
  end.
Proof.
  destruct s as [|c s]; [reflexivity|].
  unfold grammar.word_quoted.
  change (Ascii.eqb quote c) with (Ascii.eqb "'" c).
  destruct (Ascii.eqb "'" c) eqn:Ec.
  2:{ apply bind_none. now rewrite lit_char, Ec. }
  rewrite (bind_some _ _ _ tt s) by (now rewrite lit_char, Ec).
  pose proof (span_spec not_quote s) as Hs.
  destruct (span not_quote s) as [u r] eqn:Es.
  rewrite (bind_some _ _ _ u r)
    by (rewrite (slice_star_class not_quote _ s quoted_char_class); now rewrite Es).
  destruct r as [|d r]; [reflexivity|].
  destruct Hs as (_ & _ & Hd). simpl in Hd. apply negb_true_iff, not_quote_false in Hd.
  subst d. rewrite (bind_some _ _ _ tt r) by reflexivity. reflexivity.
Qed.

Lemma reference_spec (s : string) :
  grammar.reference s =
  match s with
  | String c s' =>
      if Ascii.eqb "$" c then
        match span is_name_char s' with
        | (EmptyString, _) => None
        | (u, r) => Some (Var u, r)
        end
      else None
  | EmptyString => None
  end.
Proof.
  destruct s as [|c s]; [reflexivity|].
  unfold grammar.reference.
  destruct (Ascii.eqb "$" c) eqn:Ec.
  2:{ apply bind_none. now rewrite lit_char, Ec. }
  rewrite (bind_some _ _ _ tt s) by (now rewrite lit_char, Ec).
  unfold bind. rewrite name_spec.
  destruct (span is_name_char s) as [[|d u] r]; reflexivity.
Qed.

Lemma span_app (f : ascii -> bool) (u r : string) :
  span f (u ++ r) =
  let (x, y) := span f u in
  match y with
  | EmptyString => let (x', y') := span f r in (x ++ x', y')
  | _ => (x, y ++ r)
  end.
Proof.
  induction u as [|c u IH]; simpl.
  - now destruct (span f r).
  - destruct (f c); [|reflexivity].
    rewrite IH. destruct (span f u) as [x [|d y]]; [destruct (span f r)|]; reflexivity.
Qed.

Lemma span_app_stops (f : ascii -> bool) (u r : string) :
  stops f r = true -> span f (u ++ r) = let (x, y) := span f u in (x, y ++ r).
Proof.
  intros Hr. rewrite span_app. destruct (span f u) as [x [|d y]]; [|reflexivity].
  replace (span f r) with (EmptyString, r).
  - now rewrite append_nil_r.
  - destruct r as [|c r]; [reflexivity|]. simpl in *.
    apply negb_true_iff in Hr. now rewrite Hr.
Qed.

(** ** More character facts *)

Lemma hspace_not_dollar_quote (c : ascii) :
  is_hspace c = true -> Ascii.eqb "$" c = false /\ Ascii.eqb quote c = false.
Proof. all_ascii c. Qed.

Lemma ordinary_not_dollar_paren (c : ascii) :
  is_ordinary c = true ->
  Ascii.eqb "$" c = false /\ Ascii.eqb "(" c = false /\ Ascii.eqb ")" c = false.
Proof. all_ascii c. Qed.

Lemma close_char_facts :
  is_ordinary ")" = false /\ is_name_char ")" = false /\ not_quote ")" = true.
Proof. vm_compute. auto. Qed.

(** ** [ws] and [arg] *)

Lemma ws_spec (s : string) :
  grammar.ws s =
  match s with
  | String c r => if is_hspace c then Some (tt, r) else None
  | EmptyString => None
  end.
Proof. destruct s as [|c r]; [reflexivity|]. unfold grammar.ws, quiet, bind. simpl.
  now destruct (is_hspace c). Qed.

Lemma arg_spec (s : string) :
  grammar.arg s =
  match grammar.reference s with
  | Some res => Some res
  | None =>
      match grammar.word_quoted s with
      | Some res => Some res
      | None => grammar.word_unquoted s
      end
  end.
Proof. reflexivity. Qed.

(** A rule consumes a non-empty prefix of the input whenever it matches. *)
Definition consumes {A} (p : rule A) : Prop :=
  forall s a r, p s = Some (a, r) -> exists u, u <> EmptyString /\ s = u ++ r.

Lemma consumes_progress {A} (p : rule A) : consumes p -> progress p.
Proof.
  intros H s a r E. destruct (H s a r E) as (u & Hu & ->).
  rewrite length_append_s. destruct u; [congruence|simpl; lia].
Qed.

Lemma word_unquoted_consumes : consumes grammar.word_unquoted.
Proof.
  intros s a r E. rewrite word_unquoted_spec in E.
  pose proof (span_spec is_ordinary s) as H.
  destruct (span is_ordinary s) as [[|c u] r']; [discriminate|].
  inversion E; subst. destruct H as (H & _). exists (String c u). split; [discriminate|exact H].
Qed.

Lemma reference_consumes : consumes grammar.reference.
Proof.
  intros s a r E. rewrite reference_spec in E.
  destruct s as [|c s]; [discriminate|]. destruct (Ascii.eqb "$" c); [|discriminate].
  pose proof (span_spec is_name_char s) as H.
  destruct (span is_name_char s) as [[|d u] r']; [discriminate|].
  inversion E; subst. destruct H as (H & _).
  exists (String c (String d u)). split; [discriminate|]. now rewrite H.
Qed.

Lemma word_quoted_consumes : consumes grammar.word_quoted.
Proof.
  intros s a r E. rewrite word_quoted_spec in E.
  destruct s as [|c s]; [discriminate|]. destruct (Ascii.eqb quote c); [|discriminate].
  pose proof (span_spec not_quote s) as H.
  destruct (span not_quote s) as [u [|d r']]; [discriminate|].
  inversion E; subst. destruct H as (H & _).
  exists (String c (u ++ String d EmptyString)). split; [discriminate|].
  simpl. rewrite H, append_assoc_s. reflexivity.
Qed.

Lemma arg_consumes : consumes grammar.arg.
Proof.
  intros s a r. rewrite arg_spec.
  destruct (grammar.reference s) as [[a1 r1]|] eqn:E1.
  { intros E; inversion E; subst. eapply reference_consumes; eauto. }
  destruct (grammar.word_quoted s) as [[a2 r2]|] eqn:E2.
  { intros E; inversion E; subst. eapply word_quoted_consumes; eauto. }
  apply word_unquoted_consumes.
Qed.

(** The repeated part of [arg() ** _]. *)
Definition ws_arg : rule Arg := _ <- grammar.ws ;; grammar.arg.

Lemma ws_arg_spec (s : string) :
  ws_arg s =
  match s with
  | String c r => if is_hspace c then grammar.arg r else None
  | EmptyString => None
  end.
Proof.
  unfold ws_arg, bind. rewrite ws_spec. destruct s as [|c r]; [reflexivity|].
  now destruct (is_hspace c).
Qed.

Lemma ws_arg_progress : progress ws_arg.
Proof.
  intros s a r E. rewrite ws_arg_spec in E. destruct s as [|c s]; [discriminate|].
  destruct (is_hspace c); [|discriminate].
  apply (consumes_progress _ arg_consumes) in E. simpl. lia.
Qed.

Lemma sep_by_arg_spec (s : string) :
  sep_by grammar.arg grammar.ws s =
  match grammar.arg s with
  | Some (a, r) =>
      match star ws_arg r with
      | Some (l, r') => Some (a :: l, r')
      | None => None
      end
  | None => Some ([], s)
  end.
Proof.
  unfold sep_by, alt, bind, ws_arg, ret.
  destruct (grammar.arg s) as [[a r]|]; [|reflexivity].
  pose proof (star_total (fun s => match grammar.ws s with
                                   | Some (_, r) => grammar.arg r
                                   | None => None end) r) as T.
  destruct (star _ r) as [[l r']|]; [reflexivity|congruence].
Qed.

(** ** Extending a matched argument by the text that follows it *)

Lemma hspace_stops (f : ascii -> bool) (c : ascii) (r : string) :
  is_hspace c = true -> f c = false -> stops f (String c r) = true.
Proof. intros _ H. simpl. now rewrite H. Qed.

Lemma reference_extend (t r : string) (c : ascii) (a : Arg) :
  grammar.reference t = Some (a, EmptyString) -> is_hspace c = true ->
  grammar.reference (t ++ String c r) = Some (a, String c r).
Proof.
  intros E Hc. pose proof (hspace_facts c Hc) as (_ & Hn & _).
  rewrite reference_spec in *. destruct t as [|d t]; [discriminate|].
  simpl append; cbv beta iota. destruct (Ascii.eqb "$" d); [|discriminate].
  rewrite (span_app_stops _ _ _ (hspace_stops _ c r Hc Hn)).
  destruct (span is_name_char t) as [[|e u] y]; [discriminate|].
  inversion E; subst. reflexivity.
Qed.

Lemma reference_extend_none (t r : string) (c : ascii) :
  grammar.reference t = None -> is_hspace c = true ->
  grammar.reference (t ++ String c r) = None.
Proof.
  intros E Hc. pose proof (hspace_facts c Hc) as (_ & Hn & _).
  pose proof (hspace_not_dollar_quote c Hc) as (Hd & _).
  rewrite reference_spec in *. destruct t as [|d t]; simpl append; cbv beta iota.
  - now rewrite Hd.
  - destruct (Ascii.eqb "$" d); [|reflexivity].
    rewrite (span_app_stops _ _ _ (hspace_stops _ c r Hc Hn)).
    destruct (span is_name_char t) as [[|e u] y]; [reflexivity|discriminate].
Qed.

Lemma word_quoted_extend (t rest : string) (a : Arg) :
  grammar.word_quoted t = Some (a, EmptyString) ->
  grammar.word_quoted (t ++ rest) = Some (a, rest).
Proof.
  intros E. rewrite word_quoted_spec in *. destruct t as [|d t]; [discriminate|].
  simpl append; cbv beta iota. destruct (Ascii.eqb quote d); [|discriminate].
  rewrite span_app. destruct (span not_quote t) as [u [|e y]]; [discriminate|].
  inversion E; subst. reflexivity.
Qed.

Lemma word_quoted_extend_none (t r : string) (c : ascii) :
  grammar.word_quoted t = None -> is_hspace c = true ->
  head_is quote t = false \/ all_chars not_quote (String c r) = true ->
  grammar.word_quoted (t ++ String c r) = None.
Proof.
  intros E Hc Hq. pose proof (hspace_not_dollar_quote c Hc) as (_ & Hcq).
  rewrite word_quoted_spec in *. destruct t as [|d t]; simpl append; cbv beta iota.
  - now rewrite Hcq.
  - change (head_is quote (String d t)) with (Ascii.eqb quote d) in Hq.
    destruct (Ascii.eqb quote d); [|reflexivity].
    destruct Hq as [Hq|Hq]; [discriminate|].
    rewrite span_app. destruct (span not_quote t) as [u [|e y]]; [|discriminate].
    rewrite (span_all _ _ Hq). reflexivity.
Qed.

Lemma word_unquoted_extend (t r : string) (c : ascii) (a : Arg) :
  grammar.word_unquoted t = Some (a, EmptyString) -> is_hspace c = true ->
  grammar.word_unquoted (t ++ String c r) = Some (a, String c r).
Proof.
  intros E Hc. pose proof (hspace_facts c Hc) as (_ & _ & _ & Ho).
  rewrite word_unquoted_spec in *.
  rewrite (span_app_stops _ _ _ (hspace_stops _ c r Hc Ho)).
  destruct (span is_ordinary t) as [[|e u] y]; [discriminate|].
  inversion E; subst. reflexivity.
Qed.

Lemma word_unquoted_extend_none (t r : string) (c : ascii) :
  grammar.word_unquoted t = None -> is_hspace c = true ->
  grammar.word_unquoted (t ++ String c r) = None.
Proof.
  intros E Hc. pose proof (hspace_facts c Hc) as (_ & _ & _ & Ho).
  rewrite word_unquoted_spec in *.
  rewrite (span_app_stops _ _ _ (hspace_stops _ c r Hc Ho)).
  destruct (span is_ordinary t) as [[|e u] y]; [reflexivity|discriminate].
Qed.

(** The text after an argument does not change how it is parsed, as long
    as the argument is not an unterminated quote followed by a quote. *)
Definition extends_cleanly (t rest : string) : Prop :=
  head_is quote t = false \/ grammar.word_quoted t <> None \/ all_chars not_quote rest = true.

Lemma arg_extend (t r : string) (c : ascii) (a : Arg) :
  grammar.arg t = Some (a, EmptyString) -> is_hspace c = true ->
  extends_cleanly t (String c r) ->
  grammar.arg (t ++ String c r) = Some (a, String c r).
Proof.
  intros E Hc Hx. rewrite arg_spec in *.
  destruct (grammar.reference t) as [[a1 r1]|] eqn:E1.
  { inversion E; subst. now rewrite (reference_extend _ _ _ _ E1 Hc). }
  rewrite (reference_extend_none _ _ _ E1 Hc).
  destruct (grammar.word_quoted t) as [[a2 r2]|] eqn:E2.
  { inversion E; subst. now rewrite (word_quoted_extend _ _ _ E2). }
  rewrite (word_quoted_extend_none _ _ _ E2 Hc)
    by (destruct Hx as [H|[H|H]]; [left|congruence|right]; exact H).
  now apply word_unquoted_extend.
Qed.

Lemma arg_hspace_none (c : ascii) (r : string) :
  is_hspace c = true -> grammar.arg (String c r) = None.
Proof.
  intros Hc. pose proof (hspace_not_dollar_quote c Hc) as (Hd & Hq).
  pose proof (hspace_facts c Hc) as (_ & _ & _ & Ho).
  rewrite arg_spec, reference_spec, word_quoted_spec, word_unquoted_spec, Hd, Hq.
  simpl. now rewrite Ho.
Qed.

Lemma arg_not_paren (s : string) (a : Arg) (r : string) :
  grammar.arg s = Some (a, r) -> head_is "(" s = false.
Proof.
  rewrite arg_spec, reference_spec, word_quoted_spec, word_unquoted_spec.
  destruct s as [|c s]; [discriminate|]. simpl head_is.
  destruct (Ascii.eqb "$" c) eqn:Ed.
  { apply Ascii.eqb_eq in Ed. subst c. reflexivity. }
  destruct (Ascii.eqb quote c) eqn:Eq.
  { apply Ascii.eqb_eq in Eq. subst c. reflexivity. }
  simpl. destruct (is_ordinary c) eqn:Ho; [|discriminate].
  intros _. apply ordinary_not_dollar_paren in Ho. tauto.
Qed.

Lemma head_is_app (c : ascii) (t x : string) :
  t <> EmptyString -> head_is c (t ++ x) = head_is c t.
Proof. destruct t; [congruence|reflexivity]. Qed.

(** ** Lists *)

Lemma star_ws_arg_empty : star ws_arg EmptyString = Some ([], EmptyString).
Proof. reflexivity. Qed.

Lemma sep_by_single (t : string) (a : Arg) :
  grammar.arg t = Some (a, EmptyString) ->
  sep_by grammar.arg grammar.ws t = Some ([a], EmptyString).
Proof. intros E. rewrite sep_by_arg_spec, E. reflexivity. Qed.

Lemma sep_by_cons (t u : string) (c : ascii) (a : Arg) (l : ast.List) :
  grammar.arg t = Some (a, EmptyString) -> is_hspace c = true ->
  extends_cleanly t (String c u) -> u <> EmptyString ->
  sep_by grammar.arg grammar.ws u = Some (l, EmptyString) ->
  sep_by grammar.arg grammar.ws (t ++ String c u) = Some (a :: l, EmptyString).
Proof.
  intros Et Hc Hx Hu Eu. rewrite sep_by_arg_spec, (arg_extend _ _ _ _ Et Hc Hx).
  rewrite (star_unfold _ ws_arg_progress), ws_arg_spec, Hc.
  rewrite sep_by_arg_spec in Eu.
  destruct (grammar.arg u) as [[a' r]|]; [|congruence].
  destruct (star ws_arg r) as [[l' r']|]; [|discriminate].
  inversion Eu; subst. reflexivity.
Qed.

Lemma list_bare (s : string) :
  head_is "(" s = false -> grammar.list s = sep_by grammar.arg grammar.ws s.
Proof.
  intros H. unfold grammar.list, alt.
  rewrite bind_none; [reflexivity|].
  destruct s as [|d s]; [reflexivity|]. rewrite lit_char.
  change (head_is "(" (String d s)) with (Ascii.eqb "(" d) in H. now rewrite H.
Qed.

Lemma run_some {A} (p : rule A) (s : string) (v : A) :
  run p s = Some v -> p s = Some (v, EmptyString).
Proof. unfold run. destruct (p s) as [[x [|c r]]|]; congruence. Qed.

Lemma run_of {A} (p : rule A) (s : string) (v : A) :
  p s = Some (v, EmptyString) -> run p s = Some v.
Proof. unfold run. now intros ->. Qed.

Lemma all_chars_impl (f g : ascii -> bool) (s : string) :
  (forall c, f c = true -> g c = true) -> all_chars f s = true -> all_chars g s = true.
Proof.
  intros H. induction s as [|c s IH]; simpl; [auto|].
  intros Hs. apply andb_prop in Hs as [Hc Hs]. now rewrite (H c Hc), (IH Hs).
Qed.

Lemma reference_of_name (n : string) :
  n <> EmptyString -> all_chars is_name_char n = true ->
  grammar.arg (String "$" n) = Some (Var n, EmptyString).
Proof.
  intros Hne Hn. rewrite arg_spec, reference_spec. simpl Ascii.eqb. cbv beta iota.
  rewrite (span_all _ _ Hn). destruct n; [congruence|reflexivity].
Qed.

Lemma arg_word (s : string) :
  s <> EmptyString -> all_chars is_ordinary s = true -> head_is quote s = false ->
  grammar.arg s = Some (Word s, EmptyString).
Proof.
  intros Hne Hs Hq. destruct s as [|d s']; [congruence|].
  change (head_is quote (String d s')) with (Ascii.eqb quote d) in Hq.
  pose proof Hs as Hd. simpl in Hd. apply andb_prop in Hd as [Hd _].
  apply ordinary_not_dollar_paren in Hd as (Hd & _).
  rewrite arg_spec, reference_spec, word_quoted_spec, word_unquoted_spec, Hd, Hq.
  now rewrite (span_all _ _ Hs).
Qed.

Lemma word_not_reference (s : string) (a : Arg) (r : string) :
  grammar.word s = Some (a, r) -> grammar.reference s = None.
Proof.
  unfold grammar.word, alt. rewrite word_quoted_spec, word_unquoted_spec, reference_spec.
  destruct s as [|d s]; [reflexivity|].
  destruct (Ascii.eqb quote d) eqn:Eq.
  { apply Ascii.eqb_eq in Eq. subst d. reflexivity. }
  simpl span. destruct (is_ordinary d) eqn:Ho; [|discriminate].
  apply ordinary_not_dollar_paren in Ho as (Ho & _). now rewrite Ho.
Qed.

Lemma list_of_word (w : string) (a : Arg) :
  grammar.word w = Some (a, EmptyString) -> grammar.list w = Some ([a], EmptyString).
Proof.
  intros E. assert (Ea : grammar.arg w = Some (a, EmptyString)).
  { rewrite arg_spec, (word_not_reference _ _ _ E). exact E. }
  rewrite list_bare by exact (arg_not_paren _ _ _ Ea). now apply sep_by_single.
Qed.

Lemma list_of_bare (u : string) (l : ast.List) :
  head_is "(" u = false -> parser.list u = Some l ->
  sep_by grammar.arg grammar.ws u = Some (l, EmptyString).
Proof. intros H E. apply run_some in E. now rewrite list_bare in E. Qed.

Lemma arg_nonempty (t : string) (a : Arg) (r : string) :
  grammar.arg t = Some (a, r) -> t <> EmptyString.
Proof.
  intros E. destruct (arg_consumes _ _ _ E) as (u & Hu & ->). destruct u; [congruence|discriminate].
Qed.

(** ** Statements *)

Lemma assignment_compose (t v : string) (c1 c2 : ascii) (a : Arg) (l : ast.List) :
  grammar.arg t = Some (a, EmptyString) -> is_hspace c1 = true -> is_hspace c2 = true ->
  extends_cleanly t (String c1 (String "=" (String c2 v))) ->
  grammar.list v = Some (l, EmptyString) ->
  parser.assignment (t ++ String c1 (String "=" (String c2 v))) = Some (Assignment a l).
Proof.
  intros Et H1 H2 Hx Ev. apply run_of. unfold grammar.assignment.
  rewrite (bind_some _ _ _ a _ (arg_extend _ _ _ _ Et H1 Hx)).
  rewrite (bind_some _ _ _ tt (String "=" (String c2 v))) by (rewrite ws_spec, H1; reflexivity).
  rewrite (bind_some _ _ _ tt (String c2 v)) by reflexivity.
  rewrite (bind_some _ _ _ tt v) by (rewrite ws_spec, H2; reflexivity).
  rewrite (bind_some _ _ _ l EmptyString Ev). reflexivity.
Qed.

Lemma command_compose (t v : string) (c : ascii) (a : Arg) (l : ast.List) :
  grammar.arg t = Some (a, EmptyString) -> is_hspace c = true ->
  extends_cleanly t (String c v) ->
  grammar.list v = Some (l, EmptyString) ->
  parser.command (t ++ String c v) = Some (Command a l).
Proof.
  intros Et Hc Hx Ev. apply run_of. unfold grammar.command.
  rewrite (bind_some _ _ _ a _ (arg_extend _ _ _ _ Et Hc Hx)).
  rewrite (bind_some _ _ _ tt v) by (rewrite ws_spec, Hc; reflexivity).
  rewrite (bind_some _ _ _ l EmptyString Ev). reflexivity.
Qed.

(** ** The unit tests of src/src/lib.rs and src/rcsh/src/lib.rs *)

Example test_string : parser.word "''" = Some (Word "").
Proof. reflexivity. Qed.
Example test_list1 : parser.list "(a b c)" = Some [Word "a"; Word "b"; Word "c"].
Proof. reflexivity. Qed.
Example test_list2 : parser.list "(Hello 'Laurence de Bruxelles')"
  = Some [Word "Hello"; Word "Laurence de Bruxelles"].
Proof. reflexivity. Qed.
Example test_assign : parser.assignment "$pointer = value"
  = Some (Assignment (Var "pointer") [Word "value"]).
Proof. reflexivity. Qed.
Example test_command : parser.command "%echo Hello $name"
  = Some (Command (Word "%echo") [Word "Hello"; Var "name"]).
Proof. reflexivity. Qed.
Example test_ref_bad : parser.reference "$path/name" = None.
Proof. reflexivity. Qed.
Example test_styles : parser.list "-h --verbose --var=value --output file.ext"
  = Some [Word "-h"; Word "--verbose"; Word "--var=value"; Word "--output"; Word "file.ext"].
Proof. reflexivity. Qed.

Lemma quote_free_head (s : string) :
  all_chars not_quote s = true -> head_is quote s = false.
Proof.
  destruct s as [|c s]; [reflexivity|].
  change (not_quote c && all_chars not_quote s = true -> Ascii.eqb "'" c = false).
  intros H. apply andb_prop in H as [H _].
  rewrite eqb_quote. now rewrite H.
Qed.

Lemma run_iff {A} (p : rule A) (s : string) (v : A) :
  run p s = Some v <-> p s = Some (v, EmptyString).
Proof. split; [apply run_some|apply run_of]. Qed.

(** ** A closing parenthesis after the text of a list *)

Definition close : string := String ")" EmptyString.

(** Appending [")"] to the input appends it to the unconsumed rest and
    changes nothing else: [")"] ends every rule. *)
Definition close_stable {A} (p : rule A) : Prop :=
  forall u, p (u ++ close) =
            match p u with
            | Some (a, r) => Some (a, r ++ close)
            | None => None
            end.

Lemma word_unquoted_close : close_stable grammar.word_unquoted.
Proof.
  intros u. rewrite !word_unquoted_spec, (span_app_stops _ _ _ (eq_refl : stops is_ordinary close = true)).
  destruct (span is_ordinary u) as [[|e x] y]; reflexivity.
Qed.

Lemma reference_close : close_stable grammar.reference.
Proof.
  intros u. rewrite !reference_spec. destruct u as [|d u]; [reflexivity|].
  simpl append; cbv beta iota. destruct (Ascii.eqb "$" d); [|reflexivity].
  rewrite (span_app_stops _ _ _ (eq_refl : stops is_name_char close = true)).
  destruct (span is_name_char u) as [[|e x] y]; reflexivity.
Qed.

Lemma word_quoted_close : close_stable grammar.word_quoted.
Proof.
  intros u. rewrite !word_quoted_spec. destruct u as [|d u]; [reflexivity|].
  simpl append; cbv beta iota. destruct (Ascii.eqb quote d); [|reflexivity].
  rewrite span_app. destruct (span not_quote u) as [x [|e y]]; [|reflexivity].
  replace (span not_quote close) with (close, EmptyString) by reflexivity. reflexivity.
Qed.

Lemma arg_close : close_stable grammar.arg.
Proof.
  intros u. rewrite !arg_spec, reference_close, word_quoted_close, word_unquoted_close.
  destruct (grammar.reference u) as [[a r]|]; [reflexivity|].
  destruct (grammar.word_quoted u) as [[a r]|]; reflexivity.
Qed.

Lemma ws_arg_close : close_stable ws_arg.
Proof.
  intros u. rewrite !ws_arg_spec. destruct u as [|c u]; [reflexivity|].
  simpl append; cbv beta iota. destruct (is_hspace c); [apply arg_close|reflexivity].
Qed.

Lemma star_ws_arg_close : close_stable (star ws_arg).
Proof.
  intros u. remember (length u) as k eqn:Hk. revert u Hk.
  induction k as [k IH] using lt_wf_ind. intros u Hk.
  rewrite (star_unfold _ ws_arg_progress (u ++ close)), (star_unfold _ ws_arg_progress u).
  rewrite ws_arg_close. destruct (ws_arg u) as [[a r]|] eqn:E; [|reflexivity].
  apply ws_arg_progress in E.
  rewrite (IH (length r)) by (subst; auto).
  destruct (star ws_arg r) as [[l r']|]; reflexivity.
Qed.

Lemma sep_by_close : close_stable (sep_by grammar.arg grammar.ws).
Proof.
  intros u. rewrite !sep_by_arg_spec, arg_close.
  destruct (grammar.arg u) as [[a r]|]; [|reflexivity].
  rewrite star_ws_arg_close. destruct (star ws_arg r) as [[l r']|]; reflexivity.
Qed.

Lemma arg_open_paren_none (x : string) : grammar.arg (String "(" x) = None.
Proof. reflexivity. Qed.

Lemma list_paren_bare (u : string) :
  head_is "(" u = false -> parser.list (String "(" (u ++ close)) = parser.list u.
Proof.
  intros Hh. unfold parser.list, run. rewrite (list_bare u Hh).
  assert (Hbare : sep_by grammar.arg grammar.ws (String "(" (u ++ close))
                  = Some ([], String "(" (u ++ close))).
  { rewrite sep_by_arg_spec. now rewrite arg_open_paren_none. }
  unfold grammar.list, alt.
  rewrite (bind_some _ _ _ tt (u ++ close)) by reflexivity. cbv beta.
  destruct (sep_by grammar.arg grammar.ws u) as [[l r]|] eqn:Es.
  2:{ rewrite bind_none by (now rewrite sep_by_close, Es). now rewrite Hbare. }
  rewrite (bind_some _ _ _ l (r ++ close)) by (now rewrite sep_by_close, Es). cbv beta.
  destruct r as [|d r]; [reflexivity|].
  simpl append. destruct (Ascii.eqb ")" d) eqn:Ed.
  - rewrite (bind_some _ _ _ tt (r ++ close)) by (now rewrite lit_char, Ed).
    unfold ret. destruct r; reflexivity.
  - rewrite bind_none by (now rewrite lit_char, Ed). now rewrite Hbare.
Qed.

Lemma sep_by_join (ws : list string) :
  ws <> [] ->
  Forall (fun w => w <> EmptyString /\ all_chars is_ordinary w = true /\
                   all_chars not_quote w = true) ws ->
  String.concat " " ws <> EmptyString /\ head_is "(" (String.concat " " ws) = false /\
  sep_by grammar.arg grammar.ws (String.concat " " ws) = Some (map Word ws, EmptyString).
Proof.
  induction ws as [|w ws IH]; intros Hne Hf; [congruence|].
  inversion Hf as [|? ? (Hw & Ho & Hq) Hf']; subst.
  pose proof (arg_word w Hw Ho (quote_free_head w Hq)) as Ew.
  destruct ws as [|w' ws'].
  - simpl. split; [exact Hw|split; [exact (arg_not_paren _ _ _ Ew)|now apply sep_by_single]].
  - destruct (IH ltac:(discriminate) Hf') as (Hne' & _ & E').
    change (String.concat " " (w :: w' :: ws'))
      with (w ++ String " " (String.concat " " (w' :: ws'))).
    split; [|split].
    + destruct w; [congruence|discriminate].
    + rewrite head_is_app by exact Hw. exact (arg_not_paren _ _ _ Ew).
    + apply sep_by_cons; auto. left. now apply quote_free_head.
Qed.

Lemma reference_build (n r : string) :
  n <> EmptyString -> all_chars is_name_char n = true -> stops is_name_char r = true ->
  grammar.reference (String "$" (n ++ r)) = Some (Var n, r).
Proof.
  intros Hne Hn Hr. rewrite reference_spec. cbv beta iota.
  change (Ascii.eqb "$" "$") with true. cbv beta iota.
  rewrite (span_app_stop _ _ _ Hn Hr). destruct n; [congruence|reflexivity].
Qed.

(** ** Sequences of arguments *)

(** [t] is the whole text of one argument [a] and is not an unterminated
    quote, so the text that follows it never changes how it is read. *)
Definition clean_arg (t : string) (a : Arg) : Prop :=
  grammar.arg t = Some (a, EmptyString) /\
  (head_is quote t = false \/ grammar.word_quoted t <> None).

Lemma clean_extends (t : string) (a : Arg) (rest : string) :
  clean_arg t a -> extends_cleanly t rest.
Proof. intros (_ & [H|H]); [left|right; left]; exact H. Qed.

Lemma clean_of_reference (n : string) :
  n <> EmptyString -> all_chars is_name_char n = true -> clean_arg (String "$" n) (Var n).
Proof. intros Hne Hn. split; [now apply reference_of_name|left; reflexivity]. Qed.

Lemma clean_of_word (w : string) :
  w <> EmptyString -> all_chars is_ordinary w = true -> head_is quote w = false ->
  clean_arg w (Word w).
Proof. intros Hne Ho Hq. split; [now apply arg_word|left; exact Hq]. Qed.

Lemma star_ws_arg_sep_by (c : ascii) (u : string) (a : Arg) (l : ast.List) (r : string) :
  is_hspace c = true -> sep_by grammar.arg grammar.ws u = Some (a :: l, r) ->
  star ws_arg (String c u) = Some (a :: l, r).
Proof.
  intros Hc E. rewrite (star_unfold _ ws_arg_progress), ws_arg_spec, Hc.
  rewrite sep_by_arg_spec in E.
  destruct (grammar.arg u) as [[a' r']|]; [|discriminate].
  destruct (star ws_arg r') as [[l' r'']|]; [|discriminate].
  injection E as -> -> ->. reflexivity.
Qed.

Lemma sep_by_concat (ts : list string) (xs : ast.List) (rest : string) :
  Forall2 clean_arg ts xs -> ts <> [] ->
  (rest = EmptyString \/ exists c r, rest = String c r /\ is_hspace c = true) ->
  star ws_arg rest = Some ([], rest) ->
  sep_by grammar.arg grammar.ws (String.concat " " ts ++ rest) = Some (xs, rest).
Proof.
  intros HF. induction HF as [|t a ts xs Hta HF IH]; intros Hne Hr Hs; [congruence|].
  assert (Ea : forall c r, is_hspace c = true -> grammar.arg (t ++ String c r) = Some (a, String c r))
    by (intros c r Hc; apply arg_extend; [exact (proj1 Hta)|exact Hc|now apply (clean_extends t a)]).
  destruct ts as [|t' ts'].
  - inversion HF; subst. change (String.concat " " [t]) with t.
    rewrite sep_by_arg_spec. destruct Hr as [->|(c & r & -> & Hc)].
    + rewrite append_nil_r, (proj1 Hta), Hs. reflexivity.
    + rewrite (Ea c r Hc), Hs. reflexivity.
  - inversion HF as [|? y ? ys ? ?]; subst.
    change (String.concat " " (t :: t' :: ts'))
      with (t ++ String " " (String.concat " " (t' :: ts'))).
    rewrite append_assoc_s.
    change (String " " (String.concat " " (t' :: ts')) ++ rest)
      with (String " " (String.concat " " (t' :: ts') ++ rest)).
    rewrite sep_by_arg_spec, (Ea " " _ eq_refl).
    rewrite (star_ws_arg_sep_by " " _ _ _ _ eq_refl (IH ltac:(discriminate) Hr Hs)).
    reflexivity.
Qed.

Lemma concat_head (ts : list string) (xs : ast.List) (rest : string) :
  Forall2 clean_arg ts xs -> ts <> [] ->
  head_is "(" (String.concat " " ts ++ rest) = false.
Proof.
  intros HF Hne. destruct HF as [|t a ts xs Hta HF]; [congruence|].
  destruct Hta as (Et & _).
  assert (H : forall x, head_is "(" (t ++ x) = false).
  { intros x. rewrite head_is_app by exact (arg_nonempty _ _ _ Et). exact (arg_not_paren _ _ _ Et). }
  destruct ts as [|t' ts'].
  - apply H.
  - change (String.concat " " (t :: t' :: ts'))
      with (t ++ String " " (String.concat " " (t' :: ts'))).
    rewrite append_assoc_s. apply H.
Qed.

Lemma list_concat (ts : list string) (xs : ast.List) :
  Forall2 clean_arg ts xs -> ts <> [] ->
  grammar.list (String.concat " " ts) = Some (xs, EmptyString) /\
  parser.list (String.concat " " ts) = Some xs /\
  parser.list ("(" ++ String.concat " " ts ++ ")")%string = Some xs.
Proof.
  intros HF Hne.
  pose proof (sep_by_concat ts xs EmptyString HF Hne (or_introl eq_refl) eq_refl) as E.
  pose proof (concat_head ts xs EmptyString HF Hne) as Hh.
  rewrite append_nil_r in E, Hh.
  assert (El : grammar.list (String.concat " " ts) = Some (xs, EmptyString))
    by (now rewrite list_bare).
  split; [exact El|split; [now apply run_of|]].
  change ("(" ++ String.concat " " ts ++ ")")%string with (String "(" (String.concat " " ts ++ close)).
  rewrite (list_paren_bare _ Hh). now apply run_of.
Qed.

Lemma clean_app_cons (ts1 ts2 : list string) (xs1 xs2 : ast.List) (t : string) (a : Arg) :
  Forall2 clean_arg ts1 xs1 -> clean_arg t a -> Forall2 clean_arg ts2 xs2 ->
  Forall2 clean_arg (ts1 ++ t :: ts2)%list (xs1 ++ a :: xs2)%list /\ (ts1 ++ t :: ts2)%list <> [].
Proof.
  intros H1 H H2. split; [apply Forall2_app; [exact H1|now constructor]|].
  destruct ts1; discriminate.
Qed.

(** ** Definitions used by the further properties *)

(** The first alternative of [list], the parenthesised one. *)
Definition paren_list : rule ast.List :=
  _ <- lit "(" ;; x <- sep_by grammar.arg grammar.ws ;; _ <- lit ")" ;; ret x.

(** Appending [x] to the input appends it to the unconsumed rest. *)
Definition tail_stable {A} (x : string) (p : rule A) : Prop :=
  forall u, p (u ++ x) =
            match p u with
            | Some (a, r) => Some (a, r ++ x)
            | None => None
            end.

(** A rule whose unconsumed rest is always a suffix of its input. *)
Definition suffix_rule {A} (p : rule A) : Prop :=
  forall s a r, p s = Some (a, r) -> exists w, s = w ++ r.

(** The text an argument carries: the [&'input str] of [Var] and [Word]. *)
Definition arg_text (a : Arg) : string :=
  match a with
  | Var n => n
  | Word w => w
  end.

Definition infix (x s : string) : Prop := exists p q, s = p ++ x ++ q.

(** * The claims *)

(** C4: for every [s] without a single quote, [word_quoted("'" + s + "'")]
    is [Word(s)], the interior kept verbatim; [word_quoted("''")] and
    [word("''")] are [Word("")]; and [word_quoted] fails when no closing
    quote follows the opening one before the end of the input. *)
Theorem word_quoted_verbatim (s : string) (Hs : all_chars not_quote s = true) :
  parser.word_quoted (String quote (s ++ String quote EmptyString)) = Some (Word s) /\
  parser.word_quoted (String quote s) = None /\
  parser.word_quoted "''" = Some (Word "") /\
  parser.word "''" = Some (Word "").
Proof.
  split; [|split; [|split; reflexivity]]; unfold parser.word_quoted, run;
    rewrite word_quoted_spec, Ascii.eqb_refl.
  - rewrite span_app_stop by auto. reflexivity.
  - rewrite span_all by auto. reflexivity.
Qed.

Lemma word_quoted_witness_C4 :
  parser.word_quoted (String quote ("a $b (c)" ++ String quote EmptyString)) = Some (Word "a $b (c)") /\
  parser.word_quoted (String quote "a $b (c)") = None /\
  parser.word_quoted "''" = Some (Word "") /\
  parser.word "''" = Some (Word "").
Proof. apply (word_quoted_verbatim "a $b (c)"). reflexivity. Defined.

(** C5: for every non-empty [s] made of ordinary characters,
    [word_unquoted(s) = Word(s)]; [word_unquoted] fails on the empty input
    and on an input whose first character is special; and whatever it
    matches is a non-empty prefix of ordinary characters (no whitespace, no
    special character). *)
Theorem word_unquoted_ordinary (s : string) (Hne : s <> EmptyString)
  (Hs : all_chars is_ordinary s = true) :
  parser.word_unquoted s = Some (Word s) /\
  grammar.word_unquoted EmptyString = None /\
  (forall c r, is_special c = true -> grammar.word_unquoted (String c r) = None) /\
  (forall t w r, grammar.word_unquoted t = Some (Word w, r) ->
     t = w ++ r /\ w <> EmptyString /\ all_chars is_ordinary w = true).
Proof.
  split; [|split; [reflexivity|split]].
  - unfold parser.word_unquoted, run. rewrite word_unquoted_spec, span_all by exact Hs.
    destruct s; [congruence|reflexivity].
  - intros c r Hc. rewrite word_unquoted_spec. simpl. unfold is_ordinary. now rewrite Hc.
  - intros t w r E. rewrite word_unquoted_spec in E.
    pose proof (span_spec is_ordinary t) as Ht.
    destruct (span is_ordinary t) as [[|c u] r'] eqn:Es; [discriminate|].
    inversion E; subst. destruct Ht as (Ht & Hu & _). split; [exact Ht|]. split; [discriminate|exact Hu].
Qed.

Lemma word_unquoted_witness_C5 :
  parser.word_unquoted "a'b=c" = Some (Word "a'b=c") /\
  grammar.word_unquoted EmptyString = None /\
  (forall c r, is_special c = true -> grammar.word_unquoted (String c r) = None) /\
  (forall t w r, grammar.word_unquoted t = Some (Word w, r) ->
     t = w ++ r /\ w <> EmptyString /\ all_chars is_ordinary w = true).
Proof. apply (word_unquoted_ordinary "a'b=c"); [discriminate|reflexivity]. Defined.

(** C6: for every valid name [n] ([[A-Za-z0-9%*_-]+]),
    [reference("$" + n) = Var(n)]; [reference("$")] fails, and so does
    [reference] of ["$"] followed by any character outside the name
    alphabet. *)
Theorem reference_full_name (n : string) (Hne : n <> EmptyString)
  (Hn : all_chars is_name_char n = true) :
  parser.reference ("$" ++ n)%string = Some (Var n) /\
  parser.reference "$" = None /\
  (forall c r, is_name_char c = false -> parser.reference (String "$" (String c r)) = None).
Proof.
  split; [|split; [reflexivity|]]; unfold parser.reference, run.
  - change ("$" ++ n)%string with (String "$" n).
    rewrite reference_spec. simpl Ascii.eqb. cbv iota beta.
    rewrite span_all by exact Hn. destruct n; [congruence|reflexivity].
  - intros c r Hc. rewrite reference_spec. simpl Ascii.eqb. cbv iota beta.
    simpl. now rewrite Hc.
Qed.

Lemma reference_witness_C6 :
  parser.reference ("$" ++ "do_this%-*9")%string = Some (Var "do_this%-*9") /\
  parser.reference "$" = None /\
  (forall c r, is_name_char c = false -> parser.reference (String "$" (String c r)) = None).
Proof. apply (reference_full_name "do_this%-*9"); [discriminate|reflexivity]. Defined.

(** C1: the target of an assignment is parsed by [arg], so a variable
    reference is a legal target: for every valid name [n] and every word
    [w], [assignment("$" + n + " = " + w)] is [Assignment(Var(n), [w])];
    in particular [assignment("$pointer = value")] is
    [Assignment(Var("pointer"), [Word("value")])]. *)
Theorem assignment_through_reference (n w : string) (a : Arg)
  (Hne : n <> EmptyString) (Hn : all_chars is_name_char n = true)
  (Hw : parser.word w = Some a) :
  parser.assignment ("$" ++ n ++ " = " ++ w)%string = Some (Assignment (Var n) [a]) /\
  parser.assignment "$pointer = value" = Some (Assignment (Var "pointer") [Word "value"]).
Proof.
  split; [|reflexivity].
  change ("$" ++ n ++ " = " ++ w)%string
    with ((String "$" n) ++ String " " (String "=" (String " " w))).
  apply assignment_compose; try reflexivity.
  - now apply reference_of_name.
  - left. reflexivity.
  - apply list_of_word. now apply run_some.
Qed.

Lemma assignment_witness_C1 :
  parser.assignment ("$" ++ "x" ++ " = " ++ "'y z'")%string
    = Some (Assignment (Var "x") [Word "y z"]) /\
  parser.assignment "$pointer = value" = Some (Assignment (Var "pointer") [Word "value"]).
Proof.
  apply (assignment_through_reference "x" "'y z'" (Word "y z")); [discriminate|reflexivity|reflexivity].
Defined.

(** C2, counterexample: with no whitespace around [=], [assignment("a=1")]
    fails ([a=1] is one unquoted word and the mandatory [_] is missing). *)
Lemma assignment_no_space_fails : parser.assignment "a=1" = None.
Proof. reflexivity. Qed.

(** C2, as the code has it: the rule [_] matches exactly one space or tab,
    so an assignment has exactly one horizontal-whitespace character on each
    side of [=].  For every target [t] parsed by [arg] and every value text
    [v] parsed by [list] (the target not being an unterminated quote with a
    quote later in [v]), [assignment(t + c1 + "=" + c2 + v)] is
    [Assignment(t, v)]; [assignment("a = 1")] is
    [Assignment(Word("a"), [Word("1")])] while [a=1], [a  = 1] and
    [a =  1] are rejected. *)
Theorem assignment_one_space_each_side (t v : string) (c1 c2 : ascii) (a : Arg) (l : ast.List)
  (Ht : parser.arg t = Some a) (Hv : parser.list v = Some l)
  (H1 : is_hspace c1 = true) (H2 : is_hspace c2 = true)
  (Hx : head_is quote t = false \/ grammar.word_quoted t <> None \/
        all_chars not_quote v = true) :
  parser.assignment (t ++ String c1 (String "=" (String c2 v))) = Some (Assignment a l) /\
  parser.assignment "a = 1" = Some (Assignment (Word "a") [Word "1"]) /\
  parser.assignment "a=1" = None /\
  parser.assignment "a  = 1" = None /\
  parser.assignment "a =  1" = None.
Proof.
  split; [|repeat split; reflexivity].
  apply assignment_compose; auto.
  - now apply run_some.
  - destruct Hx as [H|[H|H]]; [left|right; left|right; right]; auto.
    pose proof (hspace_facts c1 H1) as (_ & _ & Q1 & _).
    pose proof (hspace_facts c2 H2) as (_ & _ & Q2 & _).
    simpl. now rewrite Q1, Q2, H.
  - now apply run_some.
Qed.

Lemma assignment_witness_C2 :
  parser.assignment ("x" ++ String tab (String "=" (String " " "(a b)")))
    = Some (Assignment (Word "x") [Word "a"; Word "b"]) /\
  parser.assignment "a = 1" = Some (Assignment (Word "a") [Word "1"]) /\
  parser.assignment "a=1" = None /\
  parser.assignment "a  = 1" = None /\
  parser.assignment "a =  1" = None.
Proof.
  apply (assignment_one_space_each_side "x" "(a b)" tab " " (Word "x") [Word "a"; Word "b"]);
    try reflexivity.
  left. reflexivity.
Defined.

(** C3, counterexample: two spaces between two words are not a separator;
    [list("a  b")] fails. *)
Lemma list_two_spaces_fails : parser.list "a  b" = None.
Proof. reflexivity. Qed.

(** C3, as the code has it: the separator [_] of [arg() ** _] is exactly
    one space or tab.  For two non-empty words [a] and [b] of ordinary
    characters that do not start with a single quote (a leading quote may
    open a quoted word: [list("'x y'") = [Word("x y")]]), [list(a + c + b)]
    is [[Word(a), Word(b)]] for [c] a space or a tab, and [list] fails when
    two or more whitespace characters follow [a]. *)
Theorem list_single_separator (a b : string) (c : ascii)
  (Ha : a <> EmptyString) (Hb : b <> EmptyString)
  (Hao : all_chars is_ordinary a = true) (Hbo : all_chars is_ordinary b = true)
  (Haq : head_is quote a = false) (Hbq : head_is quote b = false)
  (Hc : is_hspace c = true) :
  parser.list (a ++ String c b) = Some [Word a; Word b] /\
  (forall c1 c2 r, is_hspace c1 = true -> is_hspace c2 = true ->
     parser.list (a ++ String c1 (String c2 r)) = None) /\
  parser.list "'x y'" = Some [Word "x y"].
Proof.
  pose proof (arg_word a Ha Hao Haq) as Ea.
  pose proof (arg_word b Hb Hbo Hbq) as Eb.
  assert (Hp : forall x, head_is "(" (a ++ x) = false).
  { intros x. rewrite head_is_app by exact Ha. exact (arg_not_paren _ _ _ Ea). }
  split; [|split; [|reflexivity]].
  - apply run_of. rewrite list_bare by apply Hp.
    apply sep_by_cons; auto.
    + left. exact Haq.
    + now apply sep_by_single.
  - intros c1 c2 r H1 H2. unfold parser.list, run. rewrite list_bare by apply Hp.
    rewrite sep_by_arg_spec, (arg_extend a _ c1 _ Ea H1 (or_introl Haq)).
    rewrite (star_unfold _ ws_arg_progress), ws_arg_spec, H1, (arg_hspace_none _ _ H2).
    reflexivity.
Qed.

Lemma list_witness_C3 :
  parser.list ("don't" ++ String tab "c=d") = Some [Word "don't"; Word "c=d"] /\
  (forall c1 c2 r, is_hspace c1 = true -> is_hspace c2 = true ->
     parser.list ("don't" ++ String c1 (String c2 r)) = None) /\
  parser.list "'x y'" = Some [Word "x y"].
Proof.
  apply (list_single_separator "don't" "c=d" tab); try reflexivity; discriminate.
Defined.

(** C8: [arg] tries [reference] first, so ["$" + n] is always [Var(n)] for
    a valid name [n]: [arg] reads ["$" + n] followed by any text not
    continuing the name as [Var(n)]; in a list, bare or parenthesised,
    whose elements are single-space-separated argument texts (none an
    unterminated quote), the element ["$" + n] at any position is [Var(n)];
    it is also [Var(n)] alone, after any argument, and before any list text;
    in particular [list("Hello $name") = [Word("Hello"), Var("name")]]. *)
Theorem reference_before_word (n : string)
  (Hne : n <> EmptyString) (Hn : all_chars is_name_char n = true) :
  (forall r, stops is_name_char r = true ->
     grammar.arg ("$" ++ n ++ r)%string = Some (Var n, r)) /\
  (forall ts1 xs1 ts2 xs2, Forall2 clean_arg ts1 xs1 -> Forall2 clean_arg ts2 xs2 ->
     parser.list (String.concat " " (ts1 ++ ("$" ++ n)%string :: ts2)%list)
       = Some (xs1 ++ Var n :: xs2)%list /\
     parser.list ("(" ++ String.concat " " (ts1 ++ ("$" ++ n)%string :: ts2)%list ++ ")")%string
       = Some (xs1 ++ Var n :: xs2)%list) /\
  parser.arg ("$" ++ n)%string = Some (Var n) /\
  parser.list ("$" ++ n)%string = Some [Var n] /\
  (forall t a, parser.arg t = Some a ->
     parser.list (t ++ " $" ++ n)%string = Some [a; Var n]) /\
  (forall u l, u <> EmptyString -> head_is "(" u = false -> parser.list u = Some l ->
     parser.list ("$" ++ n ++ " " ++ u)%string = Some (Var n :: l)) /\
  parser.list "Hello $name" = Some [Word "Hello"; Var "name"].
Proof.
  pose proof (reference_of_name n Hne Hn) as E.
  split; [|split; [|split; [|split; [|split; [|split]]]]].
  - intros r Hr. change ("$" ++ n ++ r)%string with (String "$" (n ++ r)).
    rewrite arg_spec, reference_build; auto.
  - intros ts1 xs1 ts2 xs2 H1 H2.
    destruct (clean_app_cons ts1 ts2 xs1 xs2 _ _ H1 (clean_of_reference n Hne Hn) H2) as (HF & Hts).
    destruct (list_concat _ _ HF Hts) as (_ & L1 & L2). split; assumption.
  - now apply run_of.
  - apply run_of. rewrite list_bare by reflexivity. now apply sep_by_single.
  - intros t a Ht. apply run_some in Ht.
    change (t ++ " $" ++ n)%string with (t ++ String " " (String "$" n)).
    apply run_of.
    rewrite list_bare
      by (rewrite head_is_app by exact (arg_nonempty _ _ _ Ht); exact (arg_not_paren _ _ _ Ht)).
    apply sep_by_cons; auto; [|discriminate|now apply sep_by_single].
    right; right. change (all_chars not_quote n = true).
    apply (all_chars_impl is_name_char); [|exact Hn].
    intros c Hc. now apply name_char_facts.
  - intros u l Hu Hh Hl.
    change ("$" ++ n ++ " " ++ u)%string with ((String "$" n) ++ String " " u).
    apply run_of. rewrite list_bare by reflexivity.
    apply sep_by_cons; auto.
    + left. reflexivity.
    + now apply list_of_bare.
  - reflexivity.
Qed.

Lemma reference_witness_C8 :
  (forall r, stops is_name_char r = true ->
     grammar.arg ("$" ++ "x1" ++ r)%string = Some (Var "x1", r)) /\
  (forall ts1 xs1 ts2 xs2, Forall2 clean_arg ts1 xs1 -> Forall2 clean_arg ts2 xs2 ->
     parser.list (String.concat " " (ts1 ++ ("$" ++ "x1")%string :: ts2)%list)
       = Some (xs1 ++ Var "x1" :: xs2)%list /\
     parser.list ("(" ++ String.concat " " (ts1 ++ ("$" ++ "x1")%string :: ts2)%list ++ ")")%string
       = Some (xs1 ++ Var "x1" :: xs2)%list) /\
  parser.arg ("$" ++ "x1")%string = Some (Var "x1") /\
  parser.list ("$" ++ "x1")%string = Some [Var "x1"] /\
  (forall t a, parser.arg t = Some a ->
     parser.list (t ++ " $" ++ "x1")%string = Some [a; Var "x1"]) /\
  (forall u l, u <> EmptyString -> head_is "(" u = false -> parser.list u = Some l ->
     parser.list ("$" ++ "x1" ++ " " ++ u)%string = Some (Var "x1" :: l)) /\
  parser.list "Hello $name" = Some [Word "Hello"; Var "name"].
Proof. apply (reference_before_word "x1"); [discriminate|reflexivity]. Defined.

(** C9: every public entry rule succeeds exactly when its grammar rule
    matches the whole input, so any unconsumed trailing text is an error:
    a reference to a valid name followed by a non-name character fails, in
    particular [reference("$c$")] and [reference("$path/name")]. *)
Theorem entry_rules_consume_all :
  (forall s v, parser.word s = Some v <-> grammar.word s = Some (v, EmptyString)) /\
  (forall s v, parser.word_quoted s = Some v <-> grammar.word_quoted s = Some (v, EmptyString)) /\
  (forall s v, parser.word_unquoted s = Some v <-> grammar.word_unquoted s = Some (v, EmptyString)) /\
  (forall s v, parser.name s = Some v <-> grammar.name s = Some (v, EmptyString)) /\
  (forall s v, parser.reference s = Some v <-> grammar.reference s = Some (v, EmptyString)) /\
  (forall s v, parser.list s = Some v <-> grammar.list s = Some (v, EmptyString)) /\
  (forall s v, parser.assignment s = Some v <-> grammar.assignment s = Some (v, EmptyString)) /\
  (forall s v, parser.command s = Some v <-> grammar.command s = Some (v, EmptyString)) /\
  (forall n c r, n <> EmptyString -> all_chars is_name_char n = true -> is_name_char c = false ->
     parser.reference ("$" ++ n ++ String c r)%string = None) /\
  parser.reference "$c$" = None /\
  parser.reference "$path/name" = None.
Proof.
  repeat split; try (apply run_some); try (apply run_of); try assumption; try reflexivity.
  intros n c r Hne Hn Hc. unfold parser.reference, run.
  change ("$" ++ n ++ String c r)%string with (String "$" (n ++ String c r)).
  rewrite reference_spec. simpl Ascii.eqb. cbv beta iota.
  rewrite (span_app_stop _ _ _ Hn) by (simpl; now rewrite Hc).
  destruct n; [congruence|reflexivity].
Qed.

(** C10: [=] and the single quote are not special characters, so a non-empty run of
    ordinary characters containing them is one unquoted word: [word_unquoted]
    returns it whole, [list] of it (when it does not start with a quote) is
    that single word, and as a command argument, at any position among
    other single-space-separated arguments (none an unterminated quote), it
    is a single literal word; [list("--var=value") = [Word("--var=value")]]. *)
Theorem equals_and_quote_are_word_text (s : string)
  (Hne : s <> EmptyString) (Hs : all_chars is_ordinary s = true) :
  is_special "=" = false /\ is_special quote = false /\
  parser.word_unquoted s = Some (Word s) /\
  (head_is quote s = false -> parser.list s = Some [Word s]) /\
  (forall t a, parser.arg t = Some a -> head_is quote s = false ->
     head_is quote t = false \/ grammar.word_quoted t <> None ->
     parser.command (t ++ " " ++ s)%string = Some (Command a [Word s])) /\
  (forall t a ts1 xs1 ts2 xs2, clean_arg t a -> head_is quote s = false ->
     Forall2 clean_arg ts1 xs1 -> Forall2 clean_arg ts2 xs2 ->
     parser.command (t ++ " " ++ String.concat " " (ts1 ++ s :: ts2)%list)%string
       = Some (Command a (xs1 ++ Word s :: xs2)%list)) /\
  parser.list "--var=value" = Some [Word "--var=value"] /\
  parser.list "-h --verbose --var=value --output file.ext"
    = Some [Word "-h"; Word "--verbose"; Word "--var=value"; Word "--output"; Word "file.ext"].
Proof.
  assert (Hl : head_is quote s = false -> grammar.list s = Some ([Word s], EmptyString)).
  { intros Hq. pose proof (arg_word s Hne Hs Hq) as E.
    rewrite list_bare by exact (arg_not_paren _ _ _ E). now apply sep_by_single. }
  split; [reflexivity|split; [reflexivity|split; [|split; [|split; [|split]]]]].
  - apply run_of. rewrite word_unquoted_spec, (span_all _ _ Hs).
    destruct s; [congruence|reflexivity].
  - intros Hq. apply run_of. now apply Hl.
  - intros t a Ht Hq Hx. apply run_some in Ht.
    change (t ++ " " ++ s)%string with (t ++ String " " s).
    apply command_compose; auto.
    destruct Hx as [H|H]; [left|right; left]; exact H.
  - intros t a ts1 xs1 ts2 xs2 Ht Hq H1 H2.
    destruct (clean_app_cons ts1 ts2 xs1 xs2 _ _ H1 (clean_of_word s Hne Hs Hq) H2) as (HF & Hts).
    destruct (list_concat _ _ HF Hts) as (L & _).
    change (t ++ " " ++ String.concat " " (ts1 ++ s :: ts2)%list)%string
      with (t ++ String " " (String.concat " " (ts1 ++ s :: ts2)%list)).
    apply command_compose; auto.
    + exact (proj1 Ht).
    + now apply (clean_extends t a).
  - split; reflexivity.
Qed.

Lemma word_text_witness_C10 :
  is_special "=" = false /\ is_special quote = false /\
  parser.word_unquoted "a'b=c" = Some (Word "a'b=c") /\
  (head_is quote "a'b=c" = false -> parser.list "a'b=c" = Some [Word "a'b=c"]) /\
  (forall t a, parser.arg t = Some a -> head_is quote "a'b=c" = false ->
     head_is quote t = false \/ grammar.word_quoted t <> None ->
     parser.command (t ++ " " ++ "a'b=c")%string = Some (Command a [Word "a'b=c"])) /\
  (forall t a ts1 xs1 ts2 xs2, clean_arg t a -> head_is quote "a'b=c" = false ->
     Forall2 clean_arg ts1 xs1 -> Forall2 clean_arg ts2 xs2 ->
     parser.command (t ++ " " ++ String.concat " " (ts1 ++ "a'b=c" :: ts2)%list)%string
       = Some (Command a (xs1 ++ Word "a'b=c" :: xs2)%list)) /\
  parser.list "--var=value" = Some [Word "--var=value"] /\
  parser.list "-h --verbose --var=value --output file.ext"
    = Some [Word "-h"; Word "--verbose"; Word "--var=value"; Word "--output"; Word "file.ext"].
Proof. apply (equals_and_quote_are_word_text "a'b=c"); [discriminate|reflexivity]. Defined.

(** C7: the parenthesised and the bare form of [list] give the same result
    for the same element text: [list("()") = []], for every text [u] not
    starting with [(], [list("(" + u + ")") = list(u)], and for a
    single-space-separated sequence of quote-free ordinary words both are
    the list of those words; e.g. [list("(a b c)") = list("a b c") =
    [Word("a"), Word("b"), Word("c")]]. *)
Theorem list_paren_equals_bare (u : string) (Hh : head_is "(" u = false) :
  parser.list "()" = Some [] /\
  parser.list ("(" ++ u ++ ")")%string = parser.list u /\
  (forall ws, ws <> [] ->
     Forall (fun w => w <> EmptyString /\ all_chars is_ordinary w = true /\
                      all_chars not_quote w = true) ws ->
     parser.list ("(" ++ String.concat " " ws ++ ")")%string = Some (map Word ws) /\
     parser.list (String.concat " " ws) = Some (map Word ws)) /\
  parser.list "(a b c)" = Some [Word "a"; Word "b"; Word "c"] /\
  parser.list "a b c" = Some [Word "a"; Word "b"; Word "c"].
Proof.
  split; [reflexivity|split; [|split; [|split; reflexivity]]].
  - change ("(" ++ u ++ ")")%string with (String "(" (u ++ close)).
    now apply list_paren_bare.
  - intros ws Hne Hf. destruct (sep_by_join ws Hne Hf) as (_ & Hh' & E).
    assert (Hb : parser.list (String.concat " " ws) = Some (map Word ws)).
    { apply run_of. now rewrite list_bare. }
    split; [|exact Hb].
    change ("(" ++ String.concat " " ws ++ ")")%string
      with (String "(" (String.concat " " ws ++ close)).
    now rewrite list_paren_bare.
Qed.

Lemma list_witness_C7 :
  parser.list "()" = Some [] /\
  parser.list ("(" ++ "x 'y z' $v" ++ ")")%string = parser.list "x 'y z' $v" /\
  (forall ws, ws <> [] ->
     Forall (fun w => w <> EmptyString /\ all_chars is_ordinary w = true /\
                      all_chars not_quote w = true) ws ->
     parser.list ("(" ++ String.concat " " ws ++ ")")%string = Some (map Word ws) /\
     parser.list (String.concat " " ws) = Some (map Word ws)) /\
  parser.list "(a b c)" = Some [Word "a"; Word "b"; Word "c"] /\
  parser.list "a b c" = Some [Word "a"; Word "b"; Word "c"].
Proof. apply (list_paren_equals_bare "x 'y z' $v"). reflexivity. Defined.

(** * Further properties of the code *)

(** ** Lexical rules *)

Lemma span_decode (f : ascii -> bool) (s u r : string) :
  span f s = (u, r) <-> s = u ++ r /\ all_chars f u = true /\ stops f r = true.
Proof.
  split.
  - intros E. pose proof (span_spec f s) as H. now rewrite E in H.
  - intros (-> & Hu & Hr). now apply span_app_stop.
Qed.

Lemma word_quoted_build (w r : string) :
  all_chars not_quote w = true ->
  grammar.word_quoted (String quote (w ++ String quote r)) = Some (Word w, r).
Proof.
  intros Hw. rewrite word_quoted_spec. cbv beta iota.
  rewrite Ascii.eqb_refl, (span_app_stop _ _ _ Hw) by reflexivity. reflexivity.
Qed.

Lemma name_build (n r : string) :
  n <> EmptyString -> all_chars is_name_char n = true -> stops is_name_char r = true ->
  grammar.name (n ++ r) = Some (n, r).
Proof.
  intros Hne Hn Hr. rewrite name_spec, (span_app_stop _ _ _ Hn Hr).
  destruct n; [congruence|reflexivity].
Qed.

Lemma name_parts (s n r : string) :
  grammar.name s = Some (n, r) ->
  s = n ++ r /\ n <> EmptyString /\ all_chars is_name_char n = true /\
  stops is_name_char r = true.
Proof.
  rewrite name_spec. destruct (span is_name_char s) as [u y] eqn:E.
  destruct u as [|c u]; [discriminate|].
  intros H. injection H as <- <-. apply span_decode in E as (? & ? & ?).
  repeat split; auto. discriminate.
Qed.

Lemma word_quoted_parts (s : string) (a : Arg) (r : string) :
  grammar.word_quoted s = Some (a, r) ->
  exists w, a = Word w /\ s = String quote (w ++ String quote r) /\
            all_chars not_quote w = true.
Proof.
  rewrite word_quoted_spec. destruct s as [|c s]; [discriminate|].
  destruct (Ascii.eqb quote c) eqn:Ec; [|discriminate].
  apply Ascii.eqb_eq in Ec. subst c.
  pose proof (span_spec not_quote s) as Hs.
  destruct (span not_quote s) as [u [|d y]]; [discriminate|].
  intros H. injection H as <- <-. destruct Hs as (-> & Hu & Hd).
  simpl in Hd. apply negb_true_iff, not_quote_false in Hd. subst d.
  exists u. auto.
Qed.

Lemma reference_parts (s : string) (a : Arg) (r : string) :
  grammar.reference s = Some (a, r) ->
  exists n, a = Var n /\ s = String "$" (n ++ r) /\ n <> EmptyString /\
            all_chars is_name_char n = true /\ stops is_name_char r = true.
Proof.
  rewrite reference_spec. destruct s as [|c s]; [discriminate|].
  destruct (Ascii.eqb "$" c) eqn:Ec; [|discriminate].
  apply Ascii.eqb_eq in Ec. subst c.
  destruct (span is_name_char s) as [u y] eqn:E. destruct u as [|d u]; [discriminate|].
  intros H. injection H as <- <-. apply span_decode in E as (-> & Hu & Hy).
  exists (String d u). repeat split; auto. discriminate.
Qed.

Lemma word_unquoted_parts (s : string) (a : Arg) (r : string) :
  grammar.word_unquoted s = Some (a, r) ->
  exists w, a = Word w /\ s = w ++ r /\ w <> EmptyString /\
            all_chars is_ordinary w = true /\ stops is_ordinary r = true.
Proof.
  rewrite word_unquoted_spec.
  destruct (span is_ordinary s) as [u y] eqn:E. destruct u as [|d u]; [discriminate|].
  intros H. injection H as <- <-. apply span_decode in E as (-> & Hu & Hy).
  exists (String d u). repeat split; auto. discriminate.
Qed.

(** X1: [name] matches the longest non-empty prefix of name characters
    ([[A-Za-z0-9%*_-]+]), and the entry [name(s)] returns [s] itself
    exactly when [s] is a non-empty run of name characters. *)
Theorem name_decode :
  (forall s n r, grammar.name s = Some (n, r) <->
     s = n ++ r /\ n <> EmptyString /\ all_chars is_name_char n = true /\
     stops is_name_char r = true) /\
  (forall s v, parser.name s = Some v <->
     v = s /\ s <> EmptyString /\ all_chars is_name_char s = true).
Proof.
  assert (G : forall s n r, grammar.name s = Some (n, r) <->
     s = n ++ r /\ n <> EmptyString /\ all_chars is_name_char n = true /\
     stops is_name_char r = true).
  { intros s n r. split; [apply name_parts|].
    intros (-> & Hne & Hn & Hr). now apply name_build. }
  split; [exact G|].
  intros s v. unfold parser.name. rewrite run_iff, G, append_nil_r. split.
  - intros (-> & Hne & Hn & _). auto.
  - intros (-> & Hne & Hn). auto.
Qed.

(** X2: [word_quoted] matches exactly an opening quote, a quote-free
    interior [w] and the next quote, and returns [Word(w)]: the first quote
    after the opening one always closes the word. *)
Theorem word_quoted_decode (s : string) (a : Arg) (r : string) :
  grammar.word_quoted s = Some (a, r) <->
  exists w, a = Word w /\ s = String quote (w ++ String quote r) /\
            all_chars not_quote w = true.
Proof.
  split.
  - apply word_quoted_parts.
  - intros (w & -> & -> & Hw). now apply word_quoted_build.
Qed.

(** X3: [reference] matches exactly ["$"] followed by the longest
    non-empty run of name characters, and returns [Var] of that run. *)
Theorem reference_decode (s : string) (a : Arg) (r : string) :
  grammar.reference s = Some (a, r) <->
  exists n, a = Var n /\ s = String "$" (n ++ r) /\ n <> EmptyString /\
            all_chars is_name_char n = true /\ stops is_name_char r = true.
Proof.
  split.
  - apply reference_parts.
  - intros (n & -> & -> & Hne & Hn & Hr). now apply reference_build.
Qed.

(** X4: [word_unquoted] matches exactly the longest non-empty prefix of
    ordinary characters. *)
Theorem word_unquoted_decode (s : string) (a : Arg) (r : string) :
  grammar.word_unquoted s = Some (a, r) <->
  exists w, a = Word w /\ s = w ++ r /\ w <> EmptyString /\
            all_chars is_ordinary w = true /\ stops is_ordinary r = true.
Proof.
  split; [apply word_unquoted_parts|].
  intros (w & -> & -> & Hne & Hw & Hr). rewrite word_unquoted_spec, (span_app_stop _ _ _ Hw Hr).
  destruct w; [congruence|reflexivity].
Qed.

(** X5: [word] tries [word_quoted] first and falls back to [word_unquoted]:
    a quoted word is its interior, while an opening quote with no closing
    quote (followed by ordinary characters) is read as an unquoted word
    that keeps the quote. *)
Theorem word_unterminated_quote (s : string)
  (Ho : all_chars is_ordinary s = true) (Hq : all_chars not_quote s = true) :
  parser.word (String quote s) = Some (Word (String quote s)) /\
  parser.word_quoted (String quote s) = None /\
  parser.word (String quote (s ++ String quote EmptyString)) = Some (Word s).
Proof.
  assert (Eq : grammar.word_quoted (String quote s) = None).
  { rewrite word_quoted_spec. cbv beta iota. rewrite Ascii.eqb_refl, (span_all _ _ Hq).
    reflexivity. }
  split; [|split].
  - apply run_of. unfold grammar.word, alt. rewrite Eq, word_unquoted_spec.
    change (span is_ordinary (String quote s))
      with (if is_ordinary quote then let (u, r) := span is_ordinary s in (String quote u, r)
            else (EmptyString, String quote s)).
    rewrite (span_all _ _ Ho). reflexivity.
  - unfold parser.word_quoted, run. now rewrite Eq.
  - apply run_of. unfold grammar.word, alt.
    rewrite (word_quoted_build _ _ Hq). reflexivity.
Qed.

Lemma word_unterminated_quote_witness :
  parser.word (String quote "it") = Some (Word (String quote "it")) /\
  parser.word_quoted (String quote "it") = None /\
  parser.word (String quote ("it" ++ String quote EmptyString)) = Some (Word "it").
Proof. apply (word_unterminated_quote "it"); reflexivity. Defined.

(** ** Special characters around the elements of a list *)

Lemma special_facts (c : ascii) :
  is_special c = true ->
  is_ordinary c = false /\ is_name_char c = false /\ not_quote c = true /\
  Ascii.eqb quote c = false.
Proof. all_ascii c. Qed.

Lemma arg_special_none (c : ascii) (s : string) :
  is_special c = true -> c <> "$"%char -> grammar.arg (String c s) = None.
Proof.
  intros Hc Hd. destruct (special_facts c Hc) as (Ho & _ & _ & Hq).
  assert (Hd' : Ascii.eqb "$" c = false) by (apply Ascii.eqb_neq; congruence).
  rewrite arg_spec, reference_spec, word_quoted_spec, word_unquoted_spec, Hd', Hq.
  simpl. now rewrite Ho.
Qed.

Lemma list_alt (s : string) :
  grammar.list s =
  match paren_list s with
  | Some res => Some res
  | None => sep_by grammar.arg grammar.ws s
  end.
Proof. reflexivity. Qed.

Lemma paren_list_spec (s : string) :
  paren_list s =
  match s with
  | String d s' =>
      if Ascii.eqb "(" d then
        match sep_by grammar.arg grammar.ws s' with
        | Some (l, String e r) => if Ascii.eqb ")" e then Some (l, r) else None
        | _ => None
        end
      else None
  | EmptyString => None
  end.
Proof.
  destruct s as [|d s]; [reflexivity|]. unfold paren_list.
  destruct (Ascii.eqb "(" d) eqn:E.
  2:{ apply bind_none. now rewrite lit_char, E. }
  rewrite (bind_some _ _ _ tt s) by (now rewrite lit_char, E).
  unfold bind at 1.
  destruct (sep_by grammar.arg grammar.ws s) as [[l [|e r]]|]; try reflexivity.
  unfold bind. rewrite lit_char. now destruct (Ascii.eqb ")" e).
Qed.

Lemma stops_char (f : ascii -> bool) (c : ascii) :
  f c = false -> stops f (String c EmptyString) = true.
Proof. intros H. simpl. now rewrite H. Qed.

Section Trailing.

Variable c : ascii.
Hypothesis Hc : is_special c = true.

Lemma word_unquoted_tail : tail_stable (String c EmptyString) grammar.word_unquoted.
Proof.
  destruct (special_facts c Hc) as (Ho & _).
  intros u. rewrite !word_unquoted_spec, (span_app_stops _ _ _ (stops_char _ _ Ho)).
  destruct (span is_ordinary u) as [[|e x] y]; reflexivity.
Qed.


Lemma reference_tail : tail_stable (String c EmptyString) grammar.reference.
Proof.
  destruct (special_facts c Hc) as (_ & Hn & _).
  intros u. rewrite !reference_spec. destruct u as [|d u].
  - simpl append. cbv beta iota. now destruct (Ascii.eqb "$" c).
  - simpl append; cbv beta iota. destruct (Ascii.eqb "$" d); [|reflexivity].
    rewrite (span_app_stops _ _ _ (stops_char _ _ Hn)).
    destruct (span is_name_char u) as [[|e x] y]; reflexivity.
Qed.

Lemma word_quoted_tail : tail_stable (String c EmptyString) grammar.word_quoted.
Proof.
  destruct (special_facts c Hc) as (_ & _ & Hq & Hq').
  intros u. rewrite !word_quoted_spec. destruct u as [|d u].
  - simpl append; cbv beta iota. now rewrite Hq'.
  - simpl append; cbv beta iota. destruct (Ascii.eqb quote d); [|reflexivity].
    rewrite span_app. destruct (span not_quote u) as [x [|e y]]; [|reflexivity].
    replace (span not_quote (String c EmptyString)) with (String c EmptyString, EmptyString)
      by (simpl; now rewrite Hq).
    reflexivity.
Qed.

Lemma arg_tail : tail_stable (String c EmptyString) grammar.arg.
Proof.
  intros u. rewrite !arg_spec, reference_tail, word_quoted_tail, word_unquoted_tail.
  destruct (grammar.reference u) as [[a r]|]; [reflexivity|].
  destruct (grammar.word_quoted u) as [[a r]|]; reflexivity.
Qed.

Lemma ws_arg_tail : tail_stable (String c EmptyString) ws_arg.
Proof.
  intros u. rewrite !ws_arg_spec. destruct u as [|d u].
  - simpl append; cbv beta iota. now destruct (is_hspace c).
  - simpl append; cbv beta iota. destruct (is_hspace d); [apply arg_tail|reflexivity].
Qed.

Lemma star_ws_arg_tail : tail_stable (String c EmptyString) (star ws_arg).
Proof.
  intros u. remember (length u) as k eqn:Hk. revert u Hk.
  induction k as [k IH] using lt_wf_ind. intros u Hk.
  rewrite (star_unfold _ ws_arg_progress (u ++ _)), (star_unfold _ ws_arg_progress u).
  rewrite ws_arg_tail. destruct (ws_arg u) as [[a r]|] eqn:E; [|reflexivity].
  apply ws_arg_progress in E.
  rewrite (IH (length r)) by (subst; auto).
  destruct (star ws_arg r) as [[l r']|]; reflexivity.
Qed.

Lemma sep_by_tail : tail_stable (String c EmptyString) (sep_by grammar.arg grammar.ws).
Proof.
  intros u. rewrite !sep_by_arg_spec, arg_tail.
  destruct (grammar.arg u) as [[a r]|]; [|reflexivity].
  rewrite star_ws_arg_tail. destruct (star ws_arg r) as [[l r']|]; reflexivity.
Qed.

Hypothesis Hclose : c <> ")"%char.

Lemma paren_list_tail : tail_stable (String c EmptyString) paren_list.
Proof.
  assert (He : Ascii.eqb ")" c = false) by (apply Ascii.eqb_neq; congruence).
  intros u. rewrite !paren_list_spec. destruct u as [|d u].
  - simpl append; cbv beta iota. destruct (Ascii.eqb "(" c); reflexivity.
  - simpl append; cbv beta iota. destruct (Ascii.eqb "(" d); [|reflexivity].
    rewrite sep_by_tail. destruct (sep_by grammar.arg grammar.ws u) as [[l [|e r]]|].
    + simpl append. cbv beta iota. now rewrite He.
    + simpl append. cbv beta iota. now destruct (Ascii.eqb ")" e).
    + reflexivity.
Qed.

Lemma list_tail : tail_stable (String c EmptyString) grammar.list.
Proof.
  intros u. rewrite !list_alt, paren_list_tail.
  destruct (paren_list u) as [[l r]|]; [reflexivity|]. apply sep_by_tail.
Qed.

End Trailing.

Lemma list_bare_arg (s : string) (a : Arg) (r : string) :
  grammar.arg s = Some (a, r) -> grammar.list s = sep_by grammar.arg grammar.ws s.
Proof. intros E. apply list_bare. exact (arg_not_paren _ _ _ E). Qed.

Lemma star_ws_arg_stop (d : ascii) (r : string) :
  is_hspace d = false -> star ws_arg (String d r) = Some ([], String d r).
Proof. intros Hd. rewrite (star_unfold _ ws_arg_progress), ws_arg_spec, Hd. reflexivity. Qed.

Lemma run_rest_none {A} (p : rule A) (s : string) (a : A) (d : ascii) (r : string) :
  p s = Some (a, String d r) -> run p s = None.
Proof. unfold run. now intros ->. Qed.

(** X6: an input of [list] cannot start with a special character other than
    [(] and [$]: no element starts with one, so [arg() ** _] matches
    nothing and the input is left unconsumed.  This covers leading
    whitespace and the reserved characters [# | & ; ) < >] and newline. *)
Theorem list_special_start :
  forall c s, is_special c = true -> c <> "("%char -> c <> "$"%char ->
  parser.list (String c s) = None.
Proof.
  intros c s Hc Hp Hd.
  assert (Hh : head_is "(" (String c s) = false).
  { change (Ascii.eqb "(" c = false). apply Ascii.eqb_neq. congruence. }
  apply (run_rest_none _ _ [] c s).
  rewrite (list_bare _ Hh), sep_by_arg_spec, (arg_special_none c s Hc Hd). reflexivity.
Qed.

Lemma list_special_start_witness :
  is_special " " = true /\ " "%char <> "("%char /\ " "%char <> "$"%char /\
  parser.list (String " " ("a b")%string) = None.
Proof.
  split; [reflexivity|split; [discriminate|split; [discriminate|]]].
  apply list_special_start; [reflexivity|discriminate|discriminate].
Defined.

(** X7: an input of [list] cannot end with a special character other than
    [)]: appending one to any input only lengthens what is left
    unconsumed.  This covers trailing whitespace. *)
Theorem list_special_end :
  forall s c, is_special c = true -> c <> ")"%char ->
  parser.list (s ++ String c EmptyString) = None.
Proof.
  intros s c Hc Hp. unfold parser.list, run. rewrite (list_tail c Hc Hp s).
  destruct (grammar.list s) as [[l [|e r]]|]; reflexivity.
Qed.

Lemma list_special_end_witness :
  is_special tab = true /\ tab <> ")"%char /\
  parser.list ("(a b)" ++ String tab EmptyString) = None.
Proof.
  split; [reflexivity|split; [discriminate|]].
  apply list_special_end; [reflexivity|discriminate].
Defined.

(** X8: in a list whose arguments are separated by single spaces (none an
    unterminated quote), a space or tab after any argument must be followed
    by another argument: if the text after it does not start with one
    (another space, a special character other than [$], a [$] without a
    name, or nothing at all), the separator is not consumed and [list]
    fails. *)
Theorem list_element_after_separator (ts : list string) (xs : ast.List) (c : ascii) (x : string)
  (Hts : Forall2 clean_arg ts xs) (Hne : ts <> []) (Hc : is_hspace c = true)
  (Hn : grammar.arg x = None) :
  parser.list (String.concat " " ts ++ String c x) = None.
Proof.
  assert (Hs : star ws_arg (String c x) = Some ([], String c x))
    by (rewrite (star_unfold _ ws_arg_progress), ws_arg_spec, Hc, Hn; reflexivity).
  apply (run_rest_none _ _ xs c x).
  rewrite list_bare by exact (concat_head _ _ _ Hts Hne).
  apply sep_by_concat; auto. right. eauto.
Qed.

Lemma list_element_after_separator_witness :
  Forall2 clean_arg ["a"%string; "b"%string] [Word "a"; Word "b"] /\ ["a"%string; "b"%string] <> [] /\
  is_hspace " " = true /\ grammar.arg (" c")%string = None /\
  parser.list (String.concat " " ["a"%string; "b"%string] ++ String " " (" c")%string) = None.
Proof.
  assert (H : Forall2 clean_arg ["a"%string; "b"%string] [Word "a"; Word "b"])
    by (repeat constructor; (reflexivity || (left; reflexivity))).
  split; [exact H|split; [discriminate|split; [reflexivity|split; [reflexivity|]]]].
  apply (list_element_after_separator ["a"%string; "b"%string] [Word "a"; Word "b"] " " " c"); 
    [exact H|discriminate|reflexivity|reflexivity].
Defined.

(** X9: two arguments of a list must be separated by a space or a tab:
    when the first argument of the input is followed by any other
    character, [list] fails.  In particular a reference directly followed
    by a character outside the name alphabet, and a quoted word directly
    followed by anything but whitespace, make [list] fail. *)
Theorem list_arguments_need_separator :
  (forall s a d r, grammar.arg s = Some (a, String d r) -> is_hspace d = false ->
     parser.list s = None) /\
  (forall n d r, n <> EmptyString -> all_chars is_name_char n = true ->
     is_name_char d = false -> is_hspace d = false ->
     parser.list (String "$" (n ++ String d r)) = None) /\
  (forall w d r, all_chars not_quote w = true -> is_hspace d = false ->
     parser.list (String quote (w ++ String quote (String d r))) = None).
Proof.
  assert (G : forall s a d r, grammar.arg s = Some (a, String d r) -> is_hspace d = false ->
                parser.list s = None).
  { intros s a d r E Hd. apply (run_rest_none _ _ [a] d r).
    rewrite (list_bare_arg _ _ _ E), sep_by_arg_spec, E, (star_ws_arg_stop _ _ Hd).
    reflexivity. }
  split; [exact G|split].
  - intros n d r Hne Hn Hd Hh. apply (G _ (Var n) d r); [|exact Hh].
    rewrite arg_spec, reference_build; auto. simpl. now rewrite Hd.
  - intros w d r Hw Hh. apply (G _ (Word w) d r); [|exact Hh].
    rewrite arg_spec, reference_spec. cbv beta iota.
    change (Ascii.eqb "$" quote) with false. cbv beta iota.
    rewrite (word_quoted_build _ _ Hw). reflexivity.
Qed.

(** ** Parenthesised lists *)

Lemma star_suffix {A} (p : rule A) : progress p -> suffix_rule p -> suffix_rule (star p).
Proof.
  intros Hp Hs s. remember (length s) as k eqn:Hk. revert s Hk.
  induction k as [k IH] using lt_wf_ind. intros s Hk l r E.
  rewrite (star_unfold _ Hp) in E. destruct (p s) as [[a r1]|] eqn:E1.
  - destruct (star p r1) as [[l' r']|] eqn:E2; [|discriminate].
    injection E as _ <-. destruct (Hs _ _ _ E1) as (w1 & ->).
    pose proof (Hp _ _ _ E1) as Hl.
    destruct (IH (length r1) ltac:(subst; exact Hl) r1 eq_refl _ _ E2) as (w2 & ->).
    exists (w1 ++ w2). now rewrite append_assoc_s.
  - injection E as _ <-. now exists EmptyString.
Qed.

Lemma ws_arg_suffix : suffix_rule ws_arg.
Proof.
  intros s a r E. rewrite ws_arg_spec in E. destruct s as [|c s]; [discriminate|].
  destruct (is_hspace c); [|discriminate].
  destruct (arg_consumes _ _ _ E) as (w & _ & ->). now exists (String c w).
Qed.

Lemma sep_by_suffix : suffix_rule (sep_by grammar.arg grammar.ws).
Proof.
  intros s l r E. rewrite sep_by_arg_spec in E.
  destruct (grammar.arg s) as [[a r1]|] eqn:E1.
  - destruct (star ws_arg r1) as [[l' r']|] eqn:E2; [|discriminate].
    injection E as _ <-.
    destruct (arg_consumes _ _ _ E1) as (w1 & _ & ->).
    destruct (star_suffix _ ws_arg_progress ws_arg_suffix _ _ _ E2) as (w2 & ->).
    exists (w1 ++ w2). now rewrite append_assoc_s.
  - injection E as _ <-. now exists EmptyString.
Qed.

Lemma append_close_empty (r : string) : r ++ close = close -> r = EmptyString.
Proof.
  intros H. apply (f_equal length) in H. rewrite length_append_s in H.
  destruct r; [reflexivity|simpl in H; lia].
Qed.

(** X10: a list starting with [(] is accepted exactly when the rest of the
    input is a bare [arg() ** _] sequence followed by a single [)], and the
    result is that sequence; as an element cannot start with [(], lists do
    not nest. *)
Theorem list_paren_decode :
  (forall u l, parser.list (String "(" u) = Some l <->
     exists u', u = u' ++ close /\ sep_by grammar.arg grammar.ws u' = Some (l, EmptyString)) /\
  (forall r, parser.list (String "(" (String "(" r)) = None).
Proof.
  assert (G : forall u l, parser.list (String "(" u) = Some l <->
     exists u', u = u' ++ close /\ sep_by grammar.arg grammar.ws u' = Some (l, EmptyString)).
  { intros u l. unfold parser.list. rewrite run_iff, list_alt, paren_list_spec.
    change (Ascii.eqb "(" "(") with true. cbv beta iota.
    assert (Hb : sep_by grammar.arg grammar.ws (String "(" u) = Some ([], String "(" u))
      by (rewrite sep_by_arg_spec; now rewrite arg_open_paren_none).
    split.
    - destruct (sep_by grammar.arg grammar.ws u) as [[l' [|e r]]|] eqn:E;
        [rewrite Hb; discriminate| |rewrite Hb; discriminate].
      destruct (Ascii.eqb ")" e) eqn:Ee; [|rewrite Hb; discriminate].
      intros H. injection H as <- ->. apply Ascii.eqb_eq in Ee. subst e.
      destruct (sep_by_suffix _ _ _ E) as (u' & ->). exists u'. split; [reflexivity|].
      change (String ")" EmptyString) with close in E.
      rewrite sep_by_close in E.
      destruct (sep_by grammar.arg grammar.ws u') as [[l'' r'']|]; [|discriminate].
      injection E as -> Er. now rewrite (append_close_empty _ Er).
    - intros (u' & -> & E). rewrite sep_by_close, E. reflexivity. }
  split; [exact G|].
  intros r. destruct (parser.list (String "(" (String "(" r))) as [l|] eqn:E; [|reflexivity].
  exfalso. apply G in E as (u' & Hu & E).
  destruct u' as [|d u'].
  - discriminate Hu.
  - injection Hu as <- _. rewrite sep_by_arg_spec, arg_open_paren_none in E. discriminate.
Qed.

(** ** Statements *)

Lemma command_split (t v : string) (c : ascii) (a : Arg) :
  grammar.arg t = Some (a, EmptyString) -> is_hspace c = true ->
  extends_cleanly t (String c v) ->
  parser.command (t ++ String c v) =
  match grammar.list v with
  | Some (l, EmptyString) => Some (Command a l)
  | _ => None
  end.
Proof.
  intros Et Hc Hx. unfold parser.command, run, grammar.command.
  rewrite (bind_some _ _ _ a _ (arg_extend _ _ _ _ Et Hc Hx)).
  rewrite (bind_some _ _ _ tt v) by (rewrite ws_spec, Hc; reflexivity).
  unfold bind. destruct (grammar.list v) as [[l [|e r]]|]; reflexivity.
Qed.

Lemma hspace_quote_free (c : ascii) :
  is_hspace c = true -> all_chars not_quote (String c EmptyString) = true.
Proof. intros Hc. destruct (hspace_facts c Hc) as (_ & _ & Hq & _). simpl. now rewrite Hq. Qed.

(** X11: the [_] between the command name and its arguments is
    mandatory: for a command name [t] parsed whole by [arg] that is not an
    unterminated quote, [t] alone is not a command, [t] followed by one
    space or tab is a command without arguments, and otherwise
    [command(t + c + v)] succeeds exactly when [list(v)] does, with that
    list as the arguments. *)
Theorem command_needs_separator (t : string) (a : Arg)
  (Ht : grammar.arg t = Some (a, EmptyString))
  (Hq : head_is quote t = false \/ grammar.word_quoted t <> None) :
  parser.command t = None /\
  (forall c, is_hspace c = true -> parser.command (t ++ String c EmptyString) = Some (Command a [])) /\
  (forall c v, is_hspace c = true ->
     parser.command (t ++ String c v) = option_map (Command a) (parser.list v)).
Proof.
  split; [|split].
  - unfold parser.command, run, grammar.command.
    unfold bind. rewrite Ht. reflexivity.
  - intros c Hc. rewrite (command_split _ _ _ a); auto.
    right; right. now apply hspace_quote_free.
  - intros c v Hc. rewrite (command_split _ _ _ a); auto.
    2:{ destruct Hq as [H|H]; [left|right; left]; exact H. }
    unfold parser.list, run.
    destruct (grammar.list v) as [[l [|e r]]|]; reflexivity.
Qed.

Lemma command_needs_separator_witness :
  grammar.arg ("ls")%string = Some (Word "ls", EmptyString) /\
  parser.command "ls" = None /\
  (forall c, is_hspace c = true -> parser.command ("ls" ++ String c EmptyString) = Some (Command (Word "ls") [])) /\
  (forall c v, is_hspace c = true ->
     parser.command ("ls" ++ String c v) = option_map (Command (Word "ls")) (parser.list v)).
Proof.
  split; [reflexivity|]. apply (command_needs_separator "ls" (Word "ls")); [reflexivity|].
  left. reflexivity.
Defined.

(** X12: [=] is an ordinary character, so the text of an assignment is
    also a command whose first argument is the word ["="], whenever its
    value is a non-empty bare list; with an empty value, or a value that
    does not start with an argument (e.g. a parenthesised list), it is an
    assignment but not a command. *)
Theorem assignment_read_as_command (t : string) (a : Arg)
  (Ht : grammar.arg t = Some (a, EmptyString))
  (Hq : head_is quote t = false \/ grammar.word_quoted t <> None) :
  (forall v l, v <> EmptyString -> head_is "(" v = false -> parser.list v = Some l ->
     parser.assignment (t ++ " = " ++ v) = Some (Assignment a l) /\
     parser.command (t ++ " = " ++ v) = Some (Command a (Word "=" :: l))) /\
  parser.assignment (t ++ " = ") = Some (Assignment a []) /\
  (forall x, grammar.arg x = None -> parser.command (t ++ " = " ++ x) = None).
Proof.
  assert (Hx : forall r, extends_cleanly t r)
    by (intros r; destruct Hq as [H|H]; [left|right; left]; exact H).
  assert (Eq : forall x, grammar.arg (String "=" (String " " x)) = Some (Word "=", String " " x))
    by (intros x; exact (arg_extend "=" x " " (Word "=") eq_refl eq_refl (or_introl eq_refl))).
  split; [|split].
  - intros v l Hne Hh Hv. split.
    + apply assignment_compose; auto. now apply run_some.
    + change (t ++ " = " ++ v)%string with (t ++ String " " (String "=" (String " " v))).
      apply command_compose; auto.
      rewrite list_bare by reflexivity.
      apply (sep_by_cons "=" v " " (Word "=")); auto.
      * left. reflexivity.
      * now apply list_of_bare.
  - change (t ++ " = ")%string with (t ++ String " " (String "=" (String " " EmptyString))).
    apply assignment_compose; auto.
  - intros x Hn.
    change (t ++ " = " ++ x)%string with (t ++ String " " (String "=" (String " " x))).
    rewrite (command_split _ _ _ a); auto.
    rewrite list_bare, sep_by_arg_spec, Eq by reflexivity.
    rewrite (star_unfold _ ws_arg_progress), ws_arg_spec. simpl is_hspace. cbv beta iota.
    rewrite Hn. reflexivity.
Qed.

Lemma assignment_read_as_command_witness :
  grammar.arg ("$p")%string = Some (Var "p", EmptyString) /\
  (forall v l, v <> EmptyString -> head_is "(" v = false -> parser.list v = Some l ->
     parser.assignment ("$p" ++ " = " ++ v) = Some (Assignment (Var "p") l) /\
     parser.command ("$p" ++ " = " ++ v) = Some (Command (Var "p") (Word "=" :: l))) /\
  parser.assignment ("$p" ++ " = ") = Some (Assignment (Var "p") []) /\
  (forall x, grammar.arg x = None -> parser.command ("$p" ++ " = " ++ x) = None).
Proof.
  split; [reflexivity|]. apply (assignment_read_as_command "$p" (Var "p")); [reflexivity|].
  left. reflexivity.
Defined.

(** ** The statements of src/src/parser.rs *)

Lemma arg_of_name (n : string) :
  n <> EmptyString -> all_chars is_name_char n = true ->
  grammar.arg n = Some (Word n, EmptyString).
Proof.
  intros Hne Hn. apply arg_word; [exact Hne| |apply quote_free_head].
  - apply (all_chars_impl is_name_char); [|exact Hn].
    intros c Hc. unfold is_ordinary. now rewrite (proj1 (name_char_facts c Hc)).
  - apply (all_chars_impl is_name_char); [|exact Hn].
    intros c Hc. exact (proj1 (proj2 (name_char_facts c Hc))).
Qed.

Lemma head_quote_name (n : string) :
  n <> EmptyString -> all_chars is_name_char n = true -> head_is quote n = false.
Proof.
  intros Hne Hn. pose proof (arg_of_name n Hne Hn) as E.
  destruct n as [|c n]; [congruence|].
  simpl in Hn. apply andb_prop in Hn as [Hc _].
  change (Ascii.eqb "'" c = false). rewrite eqb_quote.
  now rewrite (proj1 (proj2 (name_char_facts c Hc))).
Qed.

(** X13: every statement of the parser.rs grammar is also a statement of
    the lib.rs grammar, with the name as a [Word] target: a [command] pair
    [(n, l)] is [Command(Word(n), l)] and an [Assignment(n, l)] is
    [Assignment(Word(n), l)]. *)
Theorem rcsh_statements_in_lib :
  (forall s n l, rcsh_parser.command s = Some (n, l) ->
     parser.command s = Some (Command (Word n) l)) /\
  (forall s n l, rcsh_parser.assignment s = Some (rcsh_ast.Assignment n l) ->
     parser.assignment s = Some (Assignment (Word n) l)).
Proof.
  split.
  - intros s n l H. apply run_some in H. unfold rcsh_grammar.command, bind in H.
    destruct (grammar.name s) as [[n' r1]|] eqn:E1; [|discriminate].
    destruct (grammar.ws r1) as [[[] r2]|] eqn:E2; [|discriminate].
    destruct (grammar.list r2) as [[l' r3]|] eqn:E3; [|discriminate].
    injection H as <- <- ->.
    destruct (name_parts _ _ _ E1) as (-> & Hne & Hn & _).
    rewrite ws_spec in E2. destruct r1 as [|c r1]; [discriminate|].
    destruct (is_hspace c) eqn:Hc; [|discriminate]. injection E2 as <-.
    apply command_compose; auto.
    + now apply arg_of_name.
    + left. now apply head_quote_name.
  - intros s n l H. apply run_some in H. unfold rcsh_grammar.assignment, bind in H.
    destruct (grammar.name s) as [[n' r1]|] eqn:E1; [|discriminate].
    destruct (grammar.ws r1) as [[[] r2]|] eqn:E2; [|discriminate].
    destruct (lit "=" r2) as [[[] r3]|] eqn:E3; [|discriminate].
    destruct (grammar.ws r3) as [[[] r4]|] eqn:E4; [|discriminate].
    destruct (grammar.list r4) as [[l' r5]|] eqn:E5; [|discriminate].
    injection H as <- <- ->.
    destruct (name_parts _ _ _ E1) as (-> & Hne & Hn & _).
    rewrite ws_spec in E2. destruct r1 as [|c1 r1]; [discriminate|].
    destruct (is_hspace c1) eqn:H1; [|discriminate]. injection E2 as ->.
    destruct r2 as [|e r2]; [discriminate|]. rewrite lit_char in E3.
    destruct (Ascii.eqb "=" e) eqn:Ee; [|discriminate]. injection E3 as <-.
    apply Ascii.eqb_eq in Ee. subst e.
    rewrite ws_spec in E4. destruct r2 as [|c2 r2]; [discriminate|].
    destruct (is_hspace c2) eqn:H2; [|discriminate]. injection E4 as <-.
    apply assignment_compose; auto.
    + now apply arg_of_name.
    + left. now apply head_quote_name.
Qed.

(** X14: in the parser.rs grammar a valid name followed by one space or
    tab, [=], one space or tab and a list text is an assignment to that
    name, a name followed by one space or tab and a list text is a command
    pair, and a name alone is no command. *)
Theorem rcsh_name_statements (n v : string) (c1 c2 : ascii) (l : ast.List)
  (Hne : n <> EmptyString) (Hn : all_chars is_name_char n = true)
  (H1 : is_hspace c1 = true) (H2 : is_hspace c2 = true) (Hv : parser.list v = Some l) :
  rcsh_parser.assignment (n ++ String c1 (String "=" (String c2 v)))
    = Some (rcsh_ast.Assignment n l) /\
  rcsh_parser.command (n ++ String c1 v) = Some (n, l) /\
  rcsh_parser.command n = None.
Proof.
  apply run_some in Hv.
  assert (Hs : forall r, stops is_name_char (String c1 r) = true)
    by (intros r; apply hspace_stops; [exact H1|exact (proj1 (proj2 (hspace_facts c1 H1)))]).
  split; [|split].
  - apply run_of. unfold rcsh_grammar.assignment.
    rewrite (bind_some _ _ _ n _ (name_build _ _ Hne Hn (Hs _))).
    rewrite (bind_some _ _ _ tt (String "=" (String c2 v))) by (rewrite ws_spec, H1; reflexivity).
    rewrite (bind_some _ _ _ tt (String c2 v)) by reflexivity.
    rewrite (bind_some _ _ _ tt v) by (rewrite ws_spec, H2; reflexivity).
    rewrite (bind_some _ _ _ l EmptyString Hv). reflexivity.
  - apply run_of. unfold rcsh_grammar.command.
    rewrite (bind_some _ _ _ n _ (name_build _ _ Hne Hn (Hs _))).
    rewrite (bind_some _ _ _ tt v) by (rewrite ws_spec, H1; reflexivity).
    rewrite (bind_some _ _ _ l EmptyString Hv). reflexivity.
  - unfold rcsh_parser.command, run, rcsh_grammar.command.
    rewrite <- (append_nil_r n) at 1.
    rewrite (bind_some _ _ _ n _ (name_build n EmptyString Hne Hn eq_refl)). reflexivity.
Qed.

Lemma rcsh_name_statements_witness :
  rcsh_parser.assignment ("x" ++ String " " (String "=" (String tab "(a 'b c')")))
    = Some (rcsh_ast.Assignment "x" [Word "a"; Word "b c"]) /\
  rcsh_parser.command ("%echo" ++ String " " "Hello $name") = Some (("%echo")%string, [Word "Hello"; Var "name"]) /\
  rcsh_parser.command "%echo" = None.
Proof.
  split; [|split].
  - apply (rcsh_name_statements "x" "(a 'b c')" " " tab); try reflexivity. discriminate.
  - apply (rcsh_name_statements "%echo" "Hello $name" " " " "); try reflexivity. discriminate.
  - apply (rcsh_name_statements "%echo" "Hello $name" " " " " [Word "Hello"; Var "name"]);
      try reflexivity. discriminate.
Defined.

(** X15: in the parser.rs grammar the target of a statement is the longest
    run of name characters and must be followed by a space or a tab: a
    reference [$x], a quoted word or a name glued to another character is
    rejected as target of an assignment and as name of a command. *)
Theorem rcsh_target_is_name (n r : string) (d : ascii)
  (Hn : all_chars is_name_char n = true) (Hd : is_name_char d = false)
  (Hh : is_hspace d = false) :
  rcsh_parser.assignment (n ++ String d r) = None /\
  rcsh_parser.command (n ++ String d r) = None.
Proof.
  assert (E : grammar.name (n ++ String d r) = None \/
              grammar.name (n ++ String d r) = Some (n, String d r)).
  { destruct n as [|e n].
    - left. rewrite name_spec. simpl. now rewrite Hd.
    - right. apply name_build; [discriminate|exact Hn|simpl; now rewrite Hd]. }
  unfold rcsh_parser.assignment, rcsh_parser.command, run,
    rcsh_grammar.assignment, rcsh_grammar.command.
  destruct E as [E|E]; unfold bind; rewrite E; [split; reflexivity|].
  rewrite ws_spec, Hh. split; reflexivity.
Qed.

Lemma rcsh_target_is_name_witness :
  rcsh_parser.assignment (EmptyString ++ String "$" "x = 1") = None /\
  rcsh_parser.command (EmptyString ++ String "$" "x = 1") = None.
Proof. apply (rcsh_target_is_name EmptyString ("x = 1")%string "$"); reflexivity. Defined.

(** ** Argument texts are slices of the input (src/rcsh/src/lib.rs) *)

Lemma infix_app_l (x w r : string) : infix x r -> infix x (w ++ r).
Proof. intros (p & q & ->). exists (w ++ p), q. now rewrite append_assoc_s. Qed.

Lemma infix_cons (x : string) (c : ascii) (r : string) : infix x r -> infix x (String c r).
Proof. apply (infix_app_l x (String c EmptyString)). Qed.

Lemma arg_slice (s : string) (a : Arg) (r : string) :
  grammar.arg s = Some (a, r) -> infix (arg_text a) s.
Proof.
  rewrite arg_spec.
  destruct (grammar.reference s) as [[a1 r1]|] eqn:E1.
  { intros H. injection H as <- <-.
    destruct (reference_parts _ _ _ E1) as (n & -> & -> & _). apply infix_cons.
    now exists EmptyString, r1. }
  destruct (grammar.word_quoted s) as [[a2 r2]|] eqn:E2.
  { intros H. injection H as <- <-.
    destruct (word_quoted_parts _ _ _ E2) as (w & -> & -> & _). apply infix_cons.
    now exists EmptyString, (String quote r2). }
  intros H. destruct (word_unquoted_parts _ _ _ H) as (w & -> & -> & _).
  now exists EmptyString, r.
Qed.

Lemma star_ws_arg_slices (s : string) (l : ast.List) (r : string) :
  star ws_arg s = Some (l, r) -> Forall (fun a => infix (arg_text a) s) l.
Proof.
  remember (length s) as k eqn:Hk. revert s l r Hk.
  induction k as [k IH] using lt_wf_ind. intros s l r Hk E.
  rewrite (star_unfold _ ws_arg_progress) in E.
  destruct (ws_arg s) as [[a r1]|] eqn:E1.
  - destruct (star ws_arg r1) as [[l' r']|] eqn:E2; [|discriminate].
    injection E as <- _. constructor.
    + rewrite ws_arg_spec in E1. destruct s as [|c s]; [discriminate|].
      destruct (is_hspace c); [|discriminate]. apply infix_cons. exact (arg_slice _ _ _ E1).
    + pose proof (ws_arg_progress _ _ _ E1) as Hl.
      destruct (ws_arg_suffix _ _ _ E1) as (w & Hs).
      refine (Forall_impl _ _ (IH (length r1) ltac:(subst; exact Hl) r1 l' r' eq_refl E2)).
      intros b Hb. rewrite Hs. now apply infix_app_l.
  - injection E as <- _. constructor.
Qed.

Lemma sep_by_slices (s : string) (l : ast.List) (r : string) :
  sep_by grammar.arg grammar.ws s = Some (l, r) -> Forall (fun a => infix (arg_text a) s) l.
Proof.
  rewrite sep_by_arg_spec. destruct (grammar.arg s) as [[a r1]|] eqn:E1.
  - destruct (star ws_arg r1) as [[l' r']|] eqn:E2; [|discriminate].
    intros H. injection H as <- _. constructor; [exact (arg_slice _ _ _ E1)|].
    destruct (arg_consumes _ _ _ E1) as (w & _ & Hs).
    refine (Forall_impl _ _ (star_ws_arg_slices _ _ _ E2)).
    intros b Hb. rewrite Hs. now apply infix_app_l.
  - intros H. injection H as <- _. constructor.
Qed.

Lemma list_slices (s : string) (l : ast.List) (r : string) :
  grammar.list s = Some (l, r) -> Forall (fun a => infix (arg_text a) s) l.
Proof.
  rewrite list_alt, paren_list_spec. destruct s as [|d s].
  - apply sep_by_slices.
  - destruct (Ascii.eqb "(" d); [|apply sep_by_slices].
    destruct (sep_by grammar.arg grammar.ws s) as [[l' [|e r']]|] eqn:E;
      try apply sep_by_slices.
    destruct (Ascii.eqb ")" e); [|apply sep_by_slices].
    intros H. injection H as <- _.
    refine (Forall_impl _ _ (sep_by_slices _ _ _ E)). intros b. apply infix_cons.
Qed.

(** X16: every text the parser puts in the syntax tree, the target and
    each argument of a statement and each element of a list, is a
    contiguous part of the input, which is what lets the version of the
    grammar in src/rcsh/src/lib.rs return [&'input str] slices of it. *)
Theorem ast_texts_are_slices :
  (forall s a r, grammar.arg s = Some (a, r) -> infix (arg_text a) s) /\
  (forall s l, parser.list s = Some l -> Forall (fun a => infix (arg_text a) s) l) /\
  (forall s a l, parser.command s = Some (Command a l) ->
     infix (arg_text a) s /\ Forall (fun b => infix (arg_text b) s) l) /\
  (forall s a l, parser.assignment s = Some (Assignment a l) ->
     infix (arg_text a) s /\ Forall (fun b => infix (arg_text b) s) l).
Proof.
  split; [exact arg_slice|split; [|split]].
  - intros s l H. apply run_some in H. exact (list_slices _ _ _ H).
  - intros s a l H. apply run_some in H. unfold grammar.command, bind in H.
    destruct (grammar.arg s) as [[a' r1]|] eqn:E1; [|discriminate].
    destruct (grammar.ws r1) as [[[] r2]|] eqn:E2; [|discriminate].
    destruct (grammar.list r2) as [[l' r3]|] eqn:E3; [|discriminate].
    injection H as <- <- _. split; [exact (arg_slice _ _ _ E1)|].
    destruct (arg_consumes _ _ _ E1) as (w & _ & Hs).
    rewrite ws_spec in E2. destruct r1 as [|c r1]; [discriminate|].
    destruct (is_hspace c); [|discriminate]. injection E2 as ->.
    refine (Forall_impl _ _ (list_slices _ _ _ E3)).
    intros b Hb. rewrite Hs. now apply infix_app_l, infix_cons.
  - intros s a l H. apply run_some in H. unfold grammar.assignment, bind in H.
    destruct (grammar.arg s) as [[a' r1]|] eqn:E1; [|discriminate].
    destruct (grammar.ws r1) as [[[] r2]|] eqn:E2; [|discriminate].
    destruct (lit "=" r2) as [[[] r3]|] eqn:E3; [|discriminate].
    destruct (grammar.ws r3) as [[[] r4]|] eqn:E4; [|discriminate].
    destruct (grammar.list r4) as [[l' r5]|] eqn:E5; [|discriminate].
    injection H as <- <- _. split; [exact (arg_slice _ _ _ E1)|].
    destruct (arg_consumes _ _ _ E1) as (w & _ & Hs).
    rewrite ws_spec in E2. destruct r1 as [|c1 r1]; [discriminate|].
    destruct (is_hspace c1); [|discriminate]. injection E2 as ->.
    destruct r2 as [|e r2]; [discriminate|]. rewrite lit_char in E3.
    destruct (Ascii.eqb "=" e); [|discriminate]. injection E3 as <-.
    rewrite ws_spec in E4. destruct r2 as [|c2 r2]; [discriminate|].
    destruct (is_hspace c2); [|discriminate]. injection E4 as <-.
    refine (Forall_impl _ _ (list_slices _ _ _ E5)).
    intros b Hb. rewrite Hs. now apply infix_app_l, infix_cons, infix_cons, infix_cons.
Qed.

(** X17: around [=] an assignment needs exactly its two [_]: a target
    parsed whole by [arg] that is not an unterminated quote, followed by
    one space or tab, [=] and one space or tab is an assignment
    exactly when the remaining text is a [list], with that list as the
    value, and the text ending right after [=] is no assignment. *)
Theorem assignment_value_is_list (t : string) (a : Arg)
  (Ht : grammar.arg t = Some (a, EmptyString))
  (Hq : head_is quote t = false \/ grammar.word_quoted t <> None) :
  (forall c1 c2 v, is_hspace c1 = true -> is_hspace c2 = true ->
     parser.assignment (t ++ String c1 (String "=" (String c2 v)))
       = option_map (Assignment a) (parser.list v)) /\
  (forall c1, is_hspace c1 = true ->
     parser.assignment (t ++ String c1 (String "=" EmptyString)) = None).
Proof.
  split.
  - intros c1 c2 v H1 H2.
    assert (Hx : extends_cleanly t (String c1 (String "=" (String c2 v))))
      by (destruct Hq as [H|H]; [left|right; left]; exact H).
    unfold parser.assignment, parser.list, run, grammar.assignment.
    rewrite (bind_some _ _ _ a _ (arg_extend _ _ _ _ Ht H1 Hx)).
    rewrite (bind_some _ _ _ tt (String "=" (String c2 v))) by (rewrite ws_spec, H1; reflexivity).
    rewrite (bind_some _ _ _ tt (String c2 v)) by reflexivity.
    rewrite (bind_some _ _ _ tt v) by (rewrite ws_spec, H2; reflexivity).
    unfold bind. destruct (grammar.list v) as [[l [|e r]]|]; reflexivity.
  - intros c1 H1. unfold parser.assignment, run, grammar.assignment.
    assert (Hx : extends_cleanly t (String c1 (String "=" EmptyString))).
    { right; right. simpl. now rewrite (proj1 (proj2 (proj2 (hspace_facts c1 H1)))). }
    rewrite (bind_some _ _ _ a _ (arg_extend _ _ _ _ Ht H1 Hx)).
    rewrite (bind_some _ _ _ tt (String "=" EmptyString)) by (rewrite ws_spec, H1; reflexivity).
    rewrite (bind_some _ _ _ tt EmptyString) by reflexivity.
    reflexivity.
Qed.

Lemma assignment_value_is_list_witness :
  grammar.arg ("'a b'")%string = Some (Word "a b", EmptyString) /\
  (forall c1 c2 v, is_hspace c1 = true -> is_hspace c2 = true ->
     parser.assignment ("'a b'" ++ String c1 (String "=" (String c2 v)))
       = option_map (Assignment (Word "a b")) (parser.list v)) /\
  (forall c1, is_hspace c1 = true ->
     parser.assignment ("'a b'" ++ String c1 (String "=" EmptyString)) = None).
Proof.
  split; [reflexivity|]. apply (assignment_value_is_list "'a b'" (Word "a b")); [reflexivity|].
  right. vm_compute. discriminate.
Defined.
